(** * Mapper nerve construction (gtda/mapper/nerve.py)

    A shallow embedding of [_fixed_points], [Nerve._generate_edge_data] and
    [Nerve.fit_transform], together with the small part of numpy and igraph
    that these functions call, and the properties of the resulting Mapper
    graph. *)

From stdpp Require Import base numbers list sorting gmap sets.

Set Default Proof Using "Type".

(** ** Outcomes of a Python call *)

Inductive exn :=
  StopIteration | IndexError | TypeError | InternalError | ValueError.

(** A call returns a value, raises, or (for the model of the unbounded
    [while] loop) exhausts the fuel it was given. *)
Inductive result (A : Type) : Type :=
  | Ok (a : A)
  | Raise (e : exn)
  | OutOfFuel.
Arguments Ok {A} a.
Arguments Raise {A} e.
Arguments OutOfFuel {A}.

#[global] Instance result_ret : MRet result := fun _ a => Ok a.
#[global] Instance result_bind : MBind result := fun _ _ f r =>
  match r with
  | Ok a => f a
  | Raise e => Raise e
  | OutOfFuel => OutOfFuel
  end.
#[global] Instance result_fmap : FMap result := fun _ _ f r =>
  match r with
  | Ok a => Ok (f a)
  | Raise e => Raise e
  | OutOfFuel => OutOfFuel
  end.

(** [l[i]] for a non-negative index: [IndexError] when out of range. *)
Definition getitem {A} (l : list A) (i : nat) : result A :=
  match l !! i with
  | Some x => Ok x
  | None => Raise IndexError
  end.

(** [[f(x) for x in l]] where [f] may raise. *)
Fixpoint for_each {A B} (f : A → result B) (l : list A) : result (list B) :=
  match l with
  | [] => Ok []
  | x :: l' => y ← f x; ys ← for_each f l'; Ok (y :: ys)
  end.

(** ** numpy *)

(** [np.intersect1d(a, b)]: the sorted, unique values that are in both
    arrays. *)
Definition intersect1d (a b : list Z) : list Z :=
  merge_sort Z.le (remove_dups (filter (λ x, x ∈ b) a)).

(** ** itertools *)

Definition enumerate {A} (l : list A) : list (nat * A) := imap pair l.

(** [combinations(l, 2)]: pairs of positions [p < q], in lexicographic
    order. *)
Fixpoint combinations2 {A} (l : list A) : list (A * A) :=
  match l with
  | [] => []
  | x :: l' => map (pair x) l' ++ combinations2 l'
  end.

(** ** _fixed_points *)

(** The loop [while j != k: j = mapping[j]; k = mapping[mapping[j]]]. *)
Fixpoint fixed_points_while (fuel : nat) (mapping : list nat) (j k : nat)
  : result nat :=
  match fuel with
  | 0 => OutOfFuel
  | S fuel' =>
      if decide (j ≠ k) then
        j' ← getitem mapping j;
        mj ← getitem mapping j';
        k' ← getitem mapping mj;
        fixed_points_while fuel' mapping j' k'
      else Ok j
  end.

Definition _fixed_points (fuel : nat) (mapping : list nat)
  : result (list nat) :=
  for_each (λ i, k ← getitem mapping i; fixed_points_while fuel mapping i k)
           (seq 0 (length mapping)).

(** ** The Nerve estimator and its edge scan *)

Record Nerve := {
  min_intersection : Z;
  store_edge_elements : bool;
  contract_nodes : bool;
}.

(** The four lists returned by [_generate_edge_data]; [mapping] is [None]
    when [contract_nodes] is off. *)
Record edge_data := {
  node_index_pairs : list (nat * nat);
  weights : list Z;
  intersections : list (list Z);
  mapping : option (list nat);
}.

Definition ge_int (n : nat) (m : Z) : bool := bool_decide (m ≤ Z.of_nat n)%Z.

(** Body of the loop of the [not self.store_edge_elements] branch. *)
Definition scan_step_plain (self : Nerve) (d : edge_data)
    (t : (nat * list Z) * (nat * list Z)) : edge_data :=
  let '((node_1_idx, node_1_elements), (node_2_idx, node_2_elements)) := t in
  let intersection := intersect1d node_1_elements node_2_elements in
  let intersection_size := length intersection in
  if contract_nodes self then
    if decide (intersection_size = length node_2_elements) then
      {| node_index_pairs := node_index_pairs d; weights := weights d;
         intersections := intersections d;
         mapping := (λ m, <[node_2_idx := node_1_idx]> m) <$> mapping d |}
    else if decide (intersection_size = length node_1_elements) then
      {| node_index_pairs := node_index_pairs d; weights := weights d;
         intersections := intersections d;
         mapping := (λ m, <[node_1_idx := node_2_idx]> m) <$> mapping d |}
    else if ge_int intersection_size (min_intersection self) then
      {| node_index_pairs := node_index_pairs d ++ [(node_1_idx, node_2_idx)];
         weights := weights d ++ [Z.of_nat intersection_size];
         intersections := intersections d;
         mapping := mapping d |}
    else d
  else if ge_int intersection_size (min_intersection self) then
    {| node_index_pairs := node_index_pairs d ++ [(node_1_idx, node_2_idx)];
       weights := weights d ++ [Z.of_nat intersection_size];
       intersections := intersections d;
       mapping := mapping d |}
  else d.

(** Body of the loop of the [else] branch, which also records the
    intersection itself. *)
Definition scan_step_store (self : Nerve) (d : edge_data)
    (t : (nat * list Z) * (nat * list Z)) : edge_data :=
  let '((node_1_idx, node_1_elements), (node_2_idx, node_2_elements)) := t in
  let intersection := intersect1d node_1_elements node_2_elements in
  let intersection_size := length intersection in
  if contract_nodes self then
    if decide (intersection_size = length node_2_elements) then
      {| node_index_pairs := node_index_pairs d; weights := weights d;
         intersections := intersections d;
         mapping := (λ m, <[node_2_idx := node_1_idx]> m) <$> mapping d |}
    else if decide (intersection_size = length node_1_elements) then
      {| node_index_pairs := node_index_pairs d; weights := weights d;
         intersections := intersections d;
         mapping := (λ m, <[node_1_idx := node_2_idx]> m) <$> mapping d |}
    else if ge_int intersection_size (min_intersection self) then
      {| node_index_pairs := node_index_pairs d ++ [(node_1_idx, node_2_idx)];
         weights := weights d ++ [Z.of_nat intersection_size];
         intersections := intersections d ++ [intersection];
         mapping := mapping d |}
    else d
  else if ge_int intersection_size (min_intersection self) then
    {| node_index_pairs := node_index_pairs d ++ [(node_1_idx, node_2_idx)];
       weights := weights d ++ [Z.of_nat intersection_size];
       intersections := intersections d ++ [intersection];
       mapping := mapping d |}
  else d.

Definition _generate_edge_data (self : Nerve) (node_elements : list (list Z))
  : edge_data :=
  let node_tuples := combinations2 (enumerate node_elements) in
  let init :=
    {| node_index_pairs := []; weights := []; intersections := [];
       mapping := if contract_nodes self
                  then Some (seq 0 (length node_elements)) else None |} in
  if negb (store_edge_elements self)
  then foldl (scan_step_plain self) init node_tuples
  else foldl (scan_step_store self) init node_tuples.

(** ** igraph *)

(** Labels of pullback cover sets and of partial clusters. *)
Definition label := Z.

(** A triple [(pullback_set_label, partial_cluster_label, node_elements)]. *)
Definition node : Type := label * label * list Z.

(** Vertex and edge attributes; an attribute that was never set, or that
    igraph filled in for a vertex or an edge created later, is [None]. *)
Record VertexAttrs := {
  pullback_set_label : option label;
  partial_cluster_label : option label;
  node_elements : option (list Z);
}.

Record Edge := {
  source : nat;
  target : nat;
  weight : option Z;
  edge_elements : option (list Z);
}.

Record Graph := {
  vs : list VertexAttrs;
  es : list Edge;
}.

Definition no_attrs : VertexAttrs :=
  {| pullback_set_label := None; partial_cluster_label := None;
     node_elements := None |}.

(** [ig.Graph(n)] *)
Definition Graph_new (n : nat) : Graph :=
  {| vs := replicate n no_attrs; es := [] |}.

(** [graph.vs[name] = column], one value per vertex. *)
Definition set_vs_pullback_set_label (col : list label) (g : Graph) : Graph :=
  {| vs := zip_with (λ v x,
             {| pullback_set_label := Some x;
                partial_cluster_label := partial_cluster_label v;
                node_elements := node_elements v |}) (vs g) col;
     es := es g |}.

Definition set_vs_partial_cluster_label (col : list label) (g : Graph)
  : Graph :=
  {| vs := zip_with (λ v x,
             {| pullback_set_label := pullback_set_label v;
                partial_cluster_label := Some x;
                node_elements := node_elements v |}) (vs g) col;
     es := es g |}.

Definition set_vs_node_elements (col : list (list Z)) (g : Graph) : Graph :=
  {| vs := zip_with (λ v x,
             {| pullback_set_label := pullback_set_label v;
                partial_cluster_label := partial_cluster_label v;
                node_elements := Some x |}) (vs g) col;
     es := es g |}.

(** [graph.es["weight"] = w] with a single value [w] for every edge. *)
Definition set_es_weight_all (w : Z) (g : Graph) : Graph :=
  {| vs := vs g;
     es := fmap (λ e, {| source := source e; target := target e;
                        weight := Some w;
                        edge_elements := edge_elements e |}) (es g) |}.

(** [graph.es["weight"] = col], one value per edge. *)
Definition set_es_weight (col : list Z) (g : Graph) : Graph :=
  {| vs := vs g;
     es := zip_with (λ e w, {| source := source e; target := target e;
                               weight := Some w;
                               edge_elements := edge_elements e |})
                    (es g) col |}.

Definition set_es_edge_elements (col : list (list Z)) (g : Graph) : Graph :=
  {| vs := vs g;
     es := zip_with (λ e x, {| source := source e; target := target e;
                               weight := weight e;
                               edge_elements := Some x |})
                    (es g) col |}.

(** [graph.add_edges(pairs)]: the new edges come after the old ones and
    have no attribute values yet; an endpoint that is not a vertex id is
    refused. *)
Definition add_edges (pairs : list (nat * nat)) (g : Graph) : result Graph :=
  if decide (Forall (λ p, p.1 < length (vs g) ∧ p.2 < length (vs g)) pairs)
  then Ok {| vs := vs g;
             es := es g ++ fmap (λ p, {| source := p.1; target := p.2;
                                        weight := None;
                                        edge_elements := None |}) pairs |}
  else Raise InternalError.

(** Attributes of the new vertex [q] under [combine_attrs="first"]: those
    of the first old vertex sent to [q], or nothing when no vertex is. *)
Definition first_attrs (old : list VertexAttrs) (mapping : list nat)
    (q : nat) : VertexAttrs :=
  match list_find (λ t, t = q) mapping with
  | Some (i, _) => default no_attrs (old !! i)
  | None => no_attrs
  end.

(** [graph.contract_vertices(mapping, combine_attrs="first")]: old vertex
    [i] becomes vertex [mapping[i]]; the new graph has vertices
    [0 .. max(mapping)]; edges keep their order and attributes, with both
    endpoints sent through [mapping]. *)
Definition contract_vertices (mapping : list nat) (g : Graph)
  : result Graph :=
  if decide (length mapping = length (vs g)) then
    let vcount := match mapping with [] => 0 | _ => S (max_list mapping) end in
    Ok {| vs := fmap (first_attrs (vs g) mapping) (seq 0 vcount);
          es := fmap (λ e, {| source := default 0 (mapping !! source e);
                             target := default 0 (mapping !! target e);
                             weight := weight e;
                             edge_elements := edge_elements e |}) (es g) |}
  else Raise InternalError.

(** [graph.delete_vertices(ids)]: the vertices listed and the edges that
    touch them go away; the vertices left are renumbered from 0 in their
    old order. *)
Definition new_id (ids : list nat) (v : nat) : nat :=
  length (filter (λ k, k ∉ ids) (seq 0 v)).

Definition delete_vertices (ids : list nat) (g : Graph) : result Graph :=
  if decide (Forall (λ i, i < length (vs g)) ids) then
    Ok {| vs := snd <$> filter (λ p, p.1 ∉ ids) (enumerate (vs g));
          es := fmap (λ e, {| source := new_id ids (source e);
                             target := new_id ids (target e);
                             weight := weight e;
                             edge_elements := edge_elements e |})
                    (filter (λ e, (source e ∉ ids) ∧ (target e ∉ ids)) (es g)) |}
  else Raise ValueError.

(** ** fit_transform *)

(** [[i for i in indices if i != fixed_points_mapping[i]]] *)
Fixpoint moved_indices (fixed_points_mapping : list nat) (indices : list nat)
  : result (list nat) :=
  match indices with
  | [] => Ok []
  | i :: rest =>
      t ← getitem fixed_points_mapping i;
      r ← moved_indices fixed_points_mapping rest;
      Ok (if decide (i ≠ t) then i :: r else r)
  end.

Definition fit_transform (fuel : nat) (self : Nerve) (X : list (list node))
  : result Graph :=
  let nodes := concat X in
  let graph := Graph_new (length nodes) in
  match nodes with
  | [] =>
      (* zip( *nodes) is empty, and the first next() on it raises *)
      Raise StopIteration
  | _ :: _ =>
      let graph := set_vs_pullback_set_label (nodes.*1.*1) graph in
      let graph := set_vs_partial_cluster_label (nodes.*1.*2) graph in
      let elements := nodes.*2 in
      let graph := set_vs_node_elements elements graph in
      let d := _generate_edge_data self elements in
      let graph := set_es_weight_all 1 graph in
      graph ← add_edges (node_index_pairs d) graph;
      let graph := set_es_weight (weights d) graph in
      let graph := if store_edge_elements self
                   then set_es_edge_elements (intersections d) graph
                   else graph in
      if contract_nodes self then
        m ← from_option Ok (Raise TypeError) (mapping d);
        fixed_points_mapping ← _fixed_points fuel m;
        graph ← contract_vertices fixed_points_mapping graph;
        ids ← moved_indices fixed_points_mapping (seq 0 (length (vs graph)));
        delete_vertices ids graph
      else Ok graph
  end.

(** ** Reading the scan tuple by tuple *)

(** One item of [combinations(enumerate(node_elements), 2)]. *)
Definition tuple : Type := (nat * list Z) * (nat * list Z).

Definition tuple_idx (t : tuple) : nat * nat := (t.1.1, t.2.1).
Definition tuple_inter (t : tuple) : list Z := intersect1d t.1.2 t.2.2.
Definition tuple_size (t : tuple) : nat := length (tuple_inter t).

(** The pair of the tuple is appended to [node_index_pairs]. *)
Definition emits (self : Nerve) (t : tuple) : bool :=
  (if contract_nodes self
   then bool_decide (tuple_size t ≠ length t.2.2)
        && bool_decide (tuple_size t ≠ length t.1.2)
   else true)
  && ge_int (tuple_size t) (min_intersection self).

(** What one tuple does to [mapping] when [contract_nodes] is on. *)
Definition map_step (m : list nat) (t : tuple) : list nat :=
  if decide (tuple_size t = length t.2.2) then <[t.2.1 := t.1.1]> m
  else if decide (tuple_size t = length t.1.2) then <[t.1.1 := t.2.1]> m
  else m.

(** ** The contraction mapping *)

(** [link ne v w]: some tuple of the scan may have set [mapping[v] = w]. *)
Definition link (ne : list (list Z)) (v w : nat) : Prop :=
  ∃ a b, ne !! v = Some a ∧ ne !! w = Some b ∧
    ((w < v ∧ length (intersect1d b a) = length a) ∨
     (v < w ∧ length (intersect1d a b) = length a
            ∧ length (intersect1d a b) ≠ length b)).

Definition linked (ne : list (list Z)) (m : list nat) : Prop :=
  length m = length ne ∧ ∀ v w, m !! v = Some w → w = v ∨ link ne v w.

(** The mapping returned by the scan. *)
Definition scan_mapping (ne : list (list Z)) : list nat :=
  foldl map_step (seq 0 (length ne)) (combinations2 (enumerate ne)).

(** A measure that grows along every link: longer lists first, then lower
    positions. *)
Definition rank (ne : list (list Z)) (v : nat) : nat :=
  length (default [] (ne !! v)) * length ne + (length ne - v).

(** One step of the walk of [_fixed_points] along [m]. *)
Definition follows (m : list nat) (v w : nat) : Prop := m !! v = Some w.

(** The vertices ranked above [j] by [rk]: the walk from [j] can only visit
    these. *)
Definition above (m : list nat) (rk : nat → nat) (j : nat) : list nat :=
  filter (λ v, rk j < rk v) (seq 0 (length m)).

(** ** The graph before and after contraction *)

Definition vertex_of (x : node) : VertexAttrs :=
  {| pullback_set_label := Some x.1.1; partial_cluster_label := Some x.1.2;
     node_elements := Some x.2 |}.

(** The edge that [fit_transform] builds from a tuple of the scan. *)
Definition mk_edge (store : bool) (t : tuple) : Edge :=
  {| source := t.1.1; target := t.2.1;
     weight := Some (Z.of_nat (tuple_size t));
     edge_elements := if store then Some (tuple_inter t) else None |}.

(** The graph as it stands when [fit_transform] reaches
    [if self.contract_nodes]. *)
Definition scanned_graph (self : Nerve) (nodes : list node) : Graph :=
  {| vs := vertex_of <$> nodes;
     es := mk_edge (store_edge_elements self)
           <$> filter (emits self) (combinations2 (enumerate (nodes.*2))) |}.

(** The body of [if self.contract_nodes] in [fit_transform]. *)
Definition contraction (fuel : nat) (m : list nat) (graph : Graph)
  : result Graph :=
  fixed_points_mapping ← _fixed_points fuel m;
  graph ← contract_vertices fixed_points_mapping graph;
  ids ← moved_indices fixed_points_mapping (seq 0 (length (vs graph)));
  delete_vertices ids graph.

(** [fixed_points_mapping[v]], for a vertex id [v]. *)
Definition resolved (fp : list nat) (v : nat) : nat := default 0 (fp !! v).

(** How many fixed points of [m] come before [v]: the id that the fixed
    point [v] gets once the other vertices are deleted. *)
Definition position (m : list nat) (v : nat) : nat :=
  length (filter (λ p, m !! p = Some p) (seq 0 v)).

Definition contracted_edge (fp m : list nat) (e : Edge) : Edge :=
  {| source := position m (resolved fp (source e));
     target := position m (resolved fp (target e));
     weight := weight e; edge_elements := edge_elements e |}.

(** The fixed points of a mapping, in increasing order. *)
Definition fixed_points_of (m : list nat) : list nat :=
  filter (λ p, m !! p = Some p) (seq 0 (length m)).

(** ** What is asked of the graph *)

(** Cardinality of the intersection of two index sets. *)
Definition inter_size (a b : list Z) : nat :=
  size (list_to_set a ∩ list_to_set b : gset Z).

(** Some edge of the (undirected) graph joins [i] and [j]. *)
Definition joins (i j : nat) (e : Edge) : Prop :=
  (source e = i ∧ target e = j) ∨ (source e = j ∧ target e = i).

Definition has_edge (g : Graph) (i j : nat) : Prop :=
  Exists (joins i j) (es g).

Definition no_self_loops (g : Graph) : Prop :=
  Forall (λ e, source e ≠ target e) (es g).

(** At most one edge per unordered pair of vertices. *)
Definition unordered (e : Edge) : nat * nat :=
  (source e `min` target e, source e `max` target e).

Definition no_multi_edges (g : Graph) : Prop :=
  NoDup (unordered <$> es g).

Definition drop_edge_elements (e : Edge) : Edge :=
  {| source := source e; target := target e; weight := weight e;
     edge_elements := None |}.

Definition without_edge_elements (g : Graph) : Graph :=
  {| vs := vs g; es := drop_edge_elements <$> es g |}.

(** The tuple [t] of the scan assigns to [mapping[v]]. *)
Definition writes (t : tuple) (v : nat) : Prop :=
  (tuple_size t = length t.2.2 ∧ t.2.1 = v)
  ∨ (tuple_size t ≠ length t.2.2 ∧ tuple_size t = length t.1.2 ∧ t.1.1 = v).

(** What every edge of a returned graph carries: a weight that is a size
    and reaches the threshold, and, when they are stored, that many edge
    elements, sorted and without repetition. *)
Definition well_attributed (self : Nerve) (e : Edge) : Prop :=
  ∃ n : nat, weight e = Some (Z.of_nat n)
    ∧ (min_intersection self ≤ Z.of_nat n)%Z
    ∧ if store_edge_elements self
      then ∃ l, edge_elements e = Some l ∧ length l = n
                ∧ NoDup l ∧ Sorted Z.le l
      else edge_elements e = None.

(** ** Examples *)

Definition nerve (m : Z) (s c : bool) : Nerve :=
  {| min_intersection := m; store_edge_elements := s; contract_nodes := c |}.

Definition attrs (p c : Z) (e : list Z) : VertexAttrs :=
  {| pullback_set_label := Some p; partial_cluster_label := Some c;
     node_elements := Some e |}.

Definition edge (s t : nat) (w : Z) : Edge :=
  {| source := s; target := t; weight := Some w; edge_elements := None |}.

Definition cover_chain : list (list node) :=
  [[(0, 0, [1; 2; 3])]; [(0, 1, [3; 4; 5])]; [(1, 0, [5; 6; 7])]]%Z.
Definition cover_nested : list (list node) :=
  [[(0, 0, [1; 2])]; [(0, 1, [1; 2; 3])]]%Z.
Definition cover_loop : list (list node) :=
  [[(0, 0, [1; 2]); (0, 1, [2; 3])]; [(1, 0, [1; 2; 3])]]%Z.
Definition cover_shadow : list (list node) :=
  [[(0, 0, [1]); (0, 1, [1; 2; 3])]; [(1, 0, [2; 4])]]%Z.
Definition cover_twice : list (list node) :=
  [[(0, 0, [1; 5]); (0, 1, [1; 5; 6])]; [(1, 0, [1; 2])]]%Z.

(** * Properties *)

(** ** The result monad *)

Lemma for_each_Forall2 {A B} (f : A → result B) (P : A → B → Prop) l :
  (∀ x, x ∈ l → ∃ y, f x = Ok y ∧ P x y) →
  ∃ ys, for_each f l = Ok ys ∧ Forall2 P l ys.
Proof.
  induction l as [|x l IH]; intros Hf; simpl.
  - exists []. split; [done | constructor].
  - destruct (Hf x) as (y & -> & Hy); [left |].
    destruct IH as (ys & -> & Hys).
    { intros z Hz. apply Hf. by right. }
    exists (y :: ys). split; [done | by constructor].
Qed.

Lemma getitem_Ok {A} (l : list A) i x : l !! i = Some x → getitem l i = Ok x.
Proof. unfold getitem. by intros ->. Qed.

(** ** np.intersect1d *)

Lemma intersect1d_Permutation a b :
  intersect1d a b ≡ₚ remove_dups (filter (λ x, x ∈ b) a).
Proof. apply merge_sort_Permutation. Qed.

Lemma elem_of_intersect1d a b x : x ∈ intersect1d a b ↔ x ∈ a ∧ x ∈ b.
Proof.
  rewrite intersect1d_Permutation, elem_of_remove_dups, list_elem_of_filter.
  tauto.
Qed.

Lemma NoDup_intersect1d a b : NoDup (intersect1d a b).
Proof. rewrite intersect1d_Permutation. apply NoDup_remove_dups. Qed.

Lemma length_intersect1d_l a b : length (intersect1d a b) ≤ length a.
Proof.
  apply submseteq_length, NoDup_submseteq; [apply NoDup_intersect1d |].
  intros x. rewrite elem_of_intersect1d. tauto.
Qed.

Lemma length_intersect1d_r a b : length (intersect1d a b) ≤ length b.
Proof.
  apply submseteq_length, NoDup_submseteq; [apply NoDup_intersect1d |].
  intros x. rewrite elem_of_intersect1d. tauto.
Qed.

(** The length of the array returned is the cardinality of the intersection
    of the two index sets. *)
Lemma length_intersect1d a b :
  length (intersect1d a b)
  = size (list_to_set a ∩ list_to_set b : gset Z).
Proof.
  rewrite <- (size_list_to_set (C := gset Z) (intersect1d a b))
    by apply NoDup_intersect1d.
  f_equal. apply set_eq. intros x.
  rewrite elem_of_intersection, !elem_of_list_to_set, elem_of_intersect1d.
  done.
Qed.

(** A full-size intersection means containment, whatever the side. *)
Lemma intersect1d_full_l a b :
  length (intersect1d a b) = length a → a ⊆ b.
Proof.
  intros Hlen x Hx.
  assert (intersect1d a b ≡ₚ a) as Hp.
  { apply submseteq_length_Permutation; [| lia].
    apply NoDup_submseteq; [apply NoDup_intersect1d |].
    intros y. rewrite elem_of_intersect1d. tauto. }
  rewrite <- Hp in Hx. apply elem_of_intersect1d in Hx. tauto.
Qed.

Lemma intersect1d_full_r a b :
  length (intersect1d a b) = length b → b ⊆ a.
Proof.
  intros Hlen x Hx.
  assert (intersect1d a b ≡ₚ b) as Hp.
  { apply submseteq_length_Permutation; [| lia].
    apply NoDup_submseteq; [apply NoDup_intersect1d |].
    intros y. rewrite elem_of_intersect1d. tauto. }
  rewrite <- Hp in Hx. apply elem_of_intersect1d in Hx. tauto.
Qed.

Lemma intersect1d_subseteq_l a b :
  NoDup a → a ⊆ b → length (intersect1d a b) = length a.
Proof.
  intros Hnd Hsub. apply Permutation_length, NoDup_Permutation;
    [apply NoDup_intersect1d | done |].
  intros x. rewrite elem_of_intersect1d. specialize (Hsub x). tauto.
Qed.

Lemma intersect1d_subseteq_r a b :
  NoDup b → b ⊆ a → length (intersect1d a b) = length b.
Proof.
  intros Hnd Hsub. apply Permutation_length, NoDup_Permutation;
    [apply NoDup_intersect1d | done |].
  intros x. rewrite elem_of_intersect1d. specialize (Hsub x). tauto.
Qed.

(** ** combinations and enumerate *)

Lemma elem_of_combinations2_inv {A} (l : list A) x y :
  (x, y) ∈ combinations2 l → x ∈ l ∧ y ∈ l.
Proof.
  induction l as [|z l IH]; simpl; [by intros ?%elem_of_nil |].
  rewrite elem_of_app, list_elem_of_fmap.
  intros [(y' & [= -> ->] & Hy) | H].
  - split; [left | by right].
  - destruct (IH H). split; by right.
Qed.

Lemma NoDup_combinations2 {A} (l : list A) :
  NoDup l → NoDup (combinations2 l).
Proof.
  induction 1 as [|x l Hx Hl IH]; simpl; [constructor |].
  apply NoDup_app. split_and!.
  - apply NoDup_fmap_2; [| done]. by intros ?? [= ->].
  - intros [x' y] (y' & [= -> ->] & _)%list_elem_of_fmap Hin.
    by apply elem_of_combinations2_inv in Hin as [? _].
  - done.
Qed.

Lemma combinations2_fmap {A B} (f : A → B) (l : list A) :
  combinations2 (f <$> l) = prod_map f f <$> combinations2 l.
Proof.
  induction l as [|x l IH]; csimpl; [done |].
  rewrite fmap_app, IH, <- !list_fmap_compose. done.
Qed.

Lemma elem_of_combinations2 {A} (l : list A) x y :
  (x, y) ∈ combinations2 l ↔
  ∃ i j, i < j ∧ l !! i = Some x ∧ l !! j = Some y.
Proof.
  induction l as [|z l IH]; simpl.
  - split; [by intros ?%elem_of_nil | by intros (? & ? & ? & ? & ?)].
  - rewrite elem_of_app, list_elem_of_fmap, IH. split.
    + intros [(y' & [= -> ->] & (j & Hj)%list_elem_of_lookup)
             | (i & j & Hij & Hi & Hj)].
      * exists 0, (S j). split_and!; [lia | done | done].
      * exists (S i), (S j). split_and!; [lia | done | done].
    + intros (i & j & Hij & Hi & Hj).
      destruct j as [|j]; [lia |]. destruct i as [|i]; simplify_eq/=.
      * left. exists y. split; [done |]. by eapply list_elem_of_lookup_2.
      * right. exists i, j. split_and!; [lia | done | done].
Qed.

Lemma fst_enumerate {A} (l : list A) :
  fst <$> enumerate l = seq 0 (length l).
Proof.
  unfold enumerate. rewrite fmap_imap.
  rewrite (imap_ext _ (λ i _, i)) by done.
  rewrite imap_seq_0. by rewrite list_fmap_id.
Qed.

Lemma lookup_enumerate {A} (l : list A) i p :
  enumerate l !! i = Some p ↔ p.1 = i ∧ l !! i = Some p.2.
Proof.
  unfold enumerate. rewrite list_lookup_imap. destruct p as [k x]; simpl.
  destruct (l !! i) as [y|]; simpl; split; intros H; destruct_and?;
    by simplify_eq/=.
Qed.

(** The tuples visited by the scan are the pairs of positions [i < j]. *)
Lemma elem_of_node_tuples (node_elements : list (list Z)) (t : tuple) :
  t ∈ combinations2 (enumerate node_elements) ↔
  t.1.1 < t.2.1 ∧ node_elements !! t.1.1 = Some t.1.2
  ∧ node_elements !! t.2.1 = Some t.2.2.
Proof.
  unfold tuple in *. destruct t as [[i a] [j b]].
  rewrite elem_of_combinations2. simpl. split.
  - intros (i' & j' & Hlt & [??]%lookup_enumerate & [??]%lookup_enumerate).
    simplify_eq/=. done.
  - intros (Hlt & Hi & Hj). exists i, j.
    rewrite !lookup_enumerate. done.
Qed.

Lemma node_tuples_idx (node_elements : list (list Z)) :
  tuple_idx <$> combinations2 (enumerate node_elements)
  = combinations2 (seq 0 (length node_elements)).
Proof.
  rewrite <- fst_enumerate, combinations2_fmap. apply list_fmap_ext.
  by intros _ [[??] [??]] _.
Qed.

Lemma NoDup_node_tuples_idx (node_elements : list (list Z)) :
  NoDup (tuple_idx <$> combinations2 (enumerate node_elements)).
Proof. rewrite node_tuples_idx. apply NoDup_combinations2, NoDup_seq. Qed.

(** ** The scan, tuple by tuple *)

Lemma scan_step_plain_fold self (l : list tuple) d :
  foldl (scan_step_plain self) d l =
  {| node_index_pairs :=
       node_index_pairs d ++ (tuple_idx <$> filter (emits self) l);
     weights :=
       weights d ++ ((Z.of_nat ∘ tuple_size) <$> filter (emits self) l);
     intersections := intersections d;
     mapping := if contract_nodes self
                then (λ m, foldl map_step m l) <$> mapping d
                else mapping d |}.
Proof.
  revert d. induction l as [|t l IH]; intros d; simpl.
  - rewrite !app_nil_r. destruct d as [? ? ? [?|]]; simpl;
      by destruct (contract_nodes self).
  - rewrite IH. clear IH. destruct t as [[i a] [j b]].
    rewrite filter_cons.
    unfold scan_step_plain, emits, map_step, tuple_size, tuple_inter; simpl.
    destruct (contract_nodes self); simpl;
      repeat (case_decide || case_bool_decide || case_match);
      simplify_eq/=; try done; try lia;
      rewrite <- ?option_fmap_compose, <- ?app_assoc; simpl;
      try done.
Qed.

Lemma scan_step_store_fold self (l : list tuple) d :
  foldl (scan_step_store self) d l =
  {| node_index_pairs :=
       node_index_pairs d ++ (tuple_idx <$> filter (emits self) l);
     weights :=
       weights d ++ ((Z.of_nat ∘ tuple_size) <$> filter (emits self) l);
     intersections :=
       intersections d ++ (tuple_inter <$> filter (emits self) l);
     mapping := if contract_nodes self
                then (λ m, foldl map_step m l) <$> mapping d
                else mapping d |}.
Proof.
  revert d. induction l as [|t l IH]; intros d; simpl.
  - rewrite !app_nil_r. destruct d as [? ? ? [?|]]; simpl;
      by destruct (contract_nodes self).
  - rewrite IH. clear IH. destruct t as [[i a] [j b]].
    rewrite filter_cons.
    unfold scan_step_store, emits, map_step, tuple_size, tuple_inter; simpl.
    destruct (contract_nodes self); simpl;
      repeat (case_decide || case_bool_decide || case_match);
      simplify_eq/=; try done; try lia;
      rewrite <- ?option_fmap_compose, <- ?app_assoc; simpl;
      try done.
Qed.

(** Closed form of the four lists returned by the scan. *)
Lemma generate_edge_data_eq self (node_elements : list (list Z)) :
  let T := combinations2 (enumerate node_elements) in
  _generate_edge_data self node_elements =
  {| node_index_pairs := tuple_idx <$> filter (emits self) T;
     weights := (Z.of_nat ∘ tuple_size) <$> filter (emits self) T;
     intersections := if store_edge_elements self
                      then tuple_inter <$> filter (emits self) T else [];
     mapping := if contract_nodes self
                then Some (foldl map_step (seq 0 (length node_elements)) T)
                else None |}.
Proof.
  intros T. unfold _generate_edge_data. fold T.
  destruct (store_edge_elements self); simpl.
  - rewrite scan_step_store_fold; simpl. by destruct (contract_nodes self).
  - rewrite scan_step_plain_fold; simpl. by destruct (contract_nodes self).
Qed.

(** ** The contraction mapping points along inclusion *)

Lemma linked_init ne : linked ne (seq 0 (length ne)).
Proof.
  split; [by rewrite length_seq |].
  intros v w [-> _]%lookup_seq. by left.
Qed.

Lemma linked_map_step ne m (t : tuple) :
  t ∈ combinations2 (enumerate ne) → linked ne m → linked ne (map_step m t).
Proof.
  intros (Hlt & Hi & Hj)%elem_of_node_tuples [Hlen Hm].
  destruct t as [[i a] [j b]]; simpl in *.
  unfold map_step, tuple_size, tuple_inter; simpl.
  repeat case_decide; [| | done].
  - split; [by rewrite length_insert |].
    intros v w [(-> & -> & _) | [_ ?]]%list_lookup_insert_Some; [| eauto].
    right. exists b, a. split_and!; [done | done |]. left. done.
  - split; [by rewrite length_insert |].
    intros v w [(-> & -> & _) | [_ ?]]%list_lookup_insert_Some; [| eauto].
    right. exists a, b. split_and!; [done | done |]. right.
    split_and!; [done | done | congruence].
Qed.

Lemma linked_foldl ne (l : list tuple) m :
  l ⊆ combinations2 (enumerate ne) → linked ne m →
  linked ne (foldl map_step m l).
Proof.
  revert m. induction l as [|t l IH]; intros m Hl Hm; simpl; [done |].
  apply IH.
  - intros x Hx. apply Hl. by right.
  - apply linked_map_step; [| done]. apply Hl. by left.
Qed.

Lemma linked_scan_mapping ne : linked ne (scan_mapping ne).
Proof. apply linked_foldl; [done | apply linked_init]. Qed.

Lemma link_rank ne v w :
  link ne v w → w < length ne ∧ rank ne v < rank ne w.
Proof.
  intros (a & b & Hv & Hw & H). unfold rank. rewrite Hv, Hw; simpl.
  pose proof (lookup_lt_Some _ _ _ Hv). pose proof (lookup_lt_Some _ _ _ Hw).
  split; [done |].
  destruct H as [[Hlt Hlen] | (Hlt & Hlen & Hne)].
  - pose proof (length_intersect1d_l b a). nia.
  - pose proof (length_intersect1d_r a b). nia.
Qed.

(** ** _fixed_points terminates on a ranked mapping *)

Section fixed_points.
Variables (m : list nat) (rk : nat → nat).
Hypothesis m_ranked :
  ∀ v w, m !! v = Some w → w = v ∨ (w < length m ∧ rk v < rk w).

Lemma above_lt j : j < length m → length (above m rk j) < length m.
Proof.
  intros Hj. unfold above.
  pose proof (length_filter_lt (λ v, rk j < rk v) (seq 0 (length m)) j)
    as Hlt.
  rewrite length_seq in Hlt. apply Hlt; [apply elem_of_seq |]; lia.
Qed.

Lemma above_step j w :
  m !! j = Some w → w ≠ j → length (above m rk w) < length (above m rk j).
Proof using m_ranked.
  intros Hj Hne. destruct (m_ranked _ _ Hj) as [? | [Hw Hrk]]; [done |].
  assert (above m rk w = filter (λ v, rk w < rk v) (above m rk j)) as ->.
  { unfold above. rewrite list_filter_filter. apply list_filter_iff.
    intros x. lia. }
  apply (length_filter_lt _ _ w); [| lia].
  apply list_elem_of_filter. split; [done |]. apply elem_of_seq. lia.
Qed.

Lemma fixed_points_while_ranked fuel j k :
  j < length m → length (above m rk j) < fuel →
  (m !! j = Some k ∨ ∃ j1, m !! j = Some j1 ∧ m !! j1 = Some k) →
  ∃ t, fixed_points_while fuel m j k = Ok t
       ∧ m !! t = Some t ∧ rtc (follows m) j t.
Proof using m_ranked.
  revert j k. induction fuel as [|fuel IH]; intros j k Hj Hfuel Hk; [lia |].
  simpl. case_decide as Hjk.
  - assert (∃ j', m !! j = Some j' ∧ j' ≠ j) as (j' & Hj' & Hne).
    { destruct Hk as [Hk | (j1 & H1 & H2)]; [by eauto |].
      exists j1. split; [done |]. intros ->. congruence. }
    destruct (m_ranked _ _ Hj') as [? | [Hlt Hrk]]; [done |].
    destruct (lookup_lt_is_Some_2 m j' Hlt) as [mj Hmj].
    assert (mj < length m) as Hmjlt.
    { destruct (m_ranked _ _ Hmj) as [-> | [? _]]; done. }
    destruct (lookup_lt_is_Some_2 m mj Hmjlt) as [k' Hk'].
    rewrite (getitem_Ok _ _ _ Hj'); simpl.
    rewrite (getitem_Ok _ _ _ Hmj); simpl.
    rewrite (getitem_Ok _ _ _ Hk'); simpl.
    destruct (IH j' k') as (t & Ht & Hfix & Hrtc); [done | | by eauto |].
    { pose proof (above_step _ _ Hj' Hne). lia. }
    exists t. split_and!; [done | done |]. by eapply rtc_l.
  - assert (j = k) as <- by (destruct (decide (j = k)); done).
    exists j. split_and!; [done | | done].
    destruct Hk as [Hk | (j1 & H1 & H2)]; [done |].
    destruct (m_ranked _ _ H1) as [-> | [_ Hrk1]]; [done |].
    destruct (m_ranked _ _ H2) as [-> | [_ Hrk2]]; [done | lia].
Qed.

(** With fuel for one test per vertex, every walk ends on a fixed point
    of the mapping, reached by following it. *)
Lemma fixed_points_ranked fuel :
  length m ≤ fuel →
  ∃ fp, _fixed_points fuel m = Ok fp ∧
        Forall2 (λ v t, m !! t = Some t ∧ rtc (follows m) v t)
                (seq 0 (length m)) fp.
Proof using m_ranked.
  intros Hfuel. apply for_each_Forall2. intros i [_ Hi]%elem_of_seq.
  destruct (lookup_lt_is_Some_2 m i) as [k Hk]; [lia |].
  rewrite (getitem_Ok _ _ _ Hk); simpl.
  apply fixed_points_while_ranked; [lia | | by left].
  pose proof (above_lt i). lia.
Qed.

Lemma follows_fixed v t : m !! v = Some v → rtc (follows m) v t → t = v.
Proof.
  intros Hv Hrtc. induction Hrtc as [|x y z Hxy _ IH]; [done |].
  unfold follows in Hxy. assert (y = x) as -> by congruence. by apply IH.
Qed.
End fixed_points.

Lemma scan_mapping_ranked ne v w :
  scan_mapping ne !! v = Some w →
  w = v ∨ (w < length (scan_mapping ne) ∧ rank ne v < rank ne w).
Proof.
  destruct (linked_scan_mapping ne) as [Hlen Hlink]. intros Hv.
  destruct (Hlink _ _ Hv) as [? | Hl]; [by left | right].
  rewrite Hlen. by apply link_rank.
Qed.

(** ** fit_transform, step by step *)

Lemma zip_with_replicate_l {A B C} (f : A → B → C) x (l : list B) :
  zip_with f (replicate (length l) x) l = f x <$> l.
Proof. induction l; csimpl; by f_equal. Qed.

Lemma zip_with_fmap_same {A B C D} (f : B → C → D) (g : A → B) (h : A → C) l :
  zip_with f (g <$> l) (h <$> l) = (λ x, f (g x) (h x)) <$> l.
Proof. induction l; csimpl; by f_equal. Qed.

Lemma emitted_in_range self (ne : list (list Z)) :
  Forall (λ t : tuple, t.1.1 < t.2.1 ∧ t.2.1 < length ne)
         (filter (emits self) (combinations2 (enumerate ne))).
Proof.
  apply Forall_forall. intros t [_ Ht]%list_elem_of_filter.
  apply elem_of_node_tuples in Ht as (Hlt & _ & Hj).
  split; [done |]. by eapply lookup_lt_Some.
Qed.

Lemma set_vs_columns (nodes : list node) :
  set_vs_node_elements (nodes.*2)
    (set_vs_partial_cluster_label (nodes.*1.*2)
       (set_vs_pullback_set_label (nodes.*1.*1) (Graph_new (length nodes))))
  = {| vs := vertex_of <$> nodes; es := [] |}.
Proof.
  unfold set_vs_node_elements, set_vs_partial_cluster_label,
    set_vs_pullback_set_label, Graph_new; simpl. f_equal.
  induction nodes as [|x l IH]; csimpl; [done |]. by f_equal.
Qed.

Lemma edges_built (b : bool) (V : list VertexAttrs) (F : list tuple) :
  (if b
   then set_es_edge_elements (if b then tuple_inter <$> F else [])
          (set_es_weight ((Z.of_nat ∘ tuple_size) <$> F)
             {| vs := V;
                es := fmap (λ p, {| source := p.1; target := p.2;
                                   weight := None; edge_elements := None |})
                          (tuple_idx <$> F) |})
   else set_es_weight ((Z.of_nat ∘ tuple_size) <$> F)
          {| vs := V;
             es := fmap (λ p, {| source := p.1; target := p.2;
                                weight := None; edge_elements := None |})
                       (tuple_idx <$> F) |})
  = {| vs := V; es := mk_edge b <$> F |}.
Proof.
  unfold set_es_edge_elements, set_es_weight.
  destruct b; simpl; f_equal; induction F; csimpl; by f_equal.
Qed.

Lemma fit_transform_eq fuel self X :
  fit_transform fuel self X =
  match concat X with
  | [] => Raise StopIteration
  | _ :: _ =>
      if contract_nodes self
      then contraction fuel (scan_mapping ((concat X).*2))
                       (scanned_graph self (concat X))
      else Ok (scanned_graph self (concat X))
  end.
Proof.
  unfold fit_transform. destruct (concat X) as [|x nodes] eqn:HX; [done |].
  rewrite <- HX. clear x nodes HX. set (nodes := concat X).
  rewrite generate_edge_data_eq. cbv zeta. simpl mapping.
  simpl node_index_pairs. simpl weights. simpl intersections.
  set (T := combinations2 (enumerate (nodes.*2))).
  rewrite set_vs_columns.
  unfold set_es_weight_all, add_edges; simpl.
  rewrite decide_True; last first.
  { rewrite Forall_fmap. eapply Forall_impl; [apply emitted_in_range |].
    intros t [? Ht]. rewrite length_fmap in Ht. cbn [vs fst snd].
    rewrite length_fmap. unfold compose, tuple_idx, node in *. simpl. lia. }
  cbn [mbind result_bind]. rewrite edges_built.
  destruct (contract_nodes self); done.
Qed.

(** ** igraph: what contraction and deletion leave *)

Lemma moved_indices_eq (fp l : list nat) :
  Forall (λ i, i < length fp) l →
  moved_indices fp l = Ok (filter (λ i, fp !! i ≠ Some i) l).
Proof.
  induction 1 as [|i l Hi _ IH]; simpl; [done |].
  destruct (lookup_lt_is_Some_2 fp i Hi) as [t Ht].
  rewrite (getitem_Ok _ _ _ Ht), IH; simpl. rewrite filter_cons, Ht.
  repeat case_decide; naive_solver.
Qed.

Lemma kept_vertices {A} (f : nat → A) (P : nat → Prop)
    `{!∀ i, Decision (P i)} k :
  snd <$> filter (λ p, P p.1) (enumerate (f <$> seq 0 k))
  = f <$> filter P (seq 0 k).
Proof.
  induction k as [|k IH]; [done |].
  rewrite seq_S, fmap_app. unfold enumerate in *.
  rewrite imap_app, !filter_app, !fmap_app, IH. f_equal.
  rewrite length_fmap, length_seq. csimpl. rewrite !filter_cons, !filter_nil.
  simpl. rewrite Nat.add_0_r. by case_decide.
Qed.

Lemma filter_none {A} (P : A → Prop) `{!∀ x, Decision (P x)} (l : list A) :
  Forall (λ x, ¬ P x) l → filter P l = [].
Proof.
  induction 1 as [|x l Hx _ IH]; [done |].
  by rewrite filter_cons, decide_False.
Qed.

Lemma filter_seq_below (P : nat → Prop) `{!∀ i, Decision (P i)} k n :
  k ≤ n → (∀ i, P i → i < k) →
  filter P (seq 0 n) = filter P (seq 0 k).
Proof.
  intros Hk HP. replace n with (k + (n - k)) by lia.
  rewrite seq_app, filter_app.
  rewrite (filter_none P (seq (0 + k) (n - k))); [by rewrite app_nil_r |].
  apply Forall_forall. intros i [??]%elem_of_seq Hi%HP. lia.
Qed.

Lemma filter_in_ext {A} (P Q : A → Prop)
    `{!∀ x, Decision (P x), !∀ x, Decision (Q x)} (l : list A) :
  (∀ x, x ∈ l → P x ↔ Q x) → filter P l = filter Q l.
Proof.
  induction l as [|x l IH]; intros Hl; [done |].
  rewrite !filter_cons, IH by (intros y Hy; apply Hl; by right).
  apply decide_ext, Hl. by left.
Qed.

Lemma filter_all {A} (P : A → Prop) `{!∀ x, Decision (P x)} (l : list A) :
  Forall P l → filter P l = l.
Proof.
  induction 1 as [|x l Hx _ IH]; [done |].
  by rewrite filter_cons, decide_True, IH.
Qed.

Section contraction.
Variables (m : list nat) (rk : nat → nat).
Hypothesis m_ranked :
  ∀ v w, m !! v = Some w → w = v ∨ (w < length m ∧ rk v < rk w).
Variable fp : list nat.
Hypothesis fp_walks :
  Forall2 (λ v t, m !! t = Some t ∧ rtc (follows m) v t)
          (seq 0 (length m)) fp.

Lemma fp_length : length fp = length m.
Proof using fp_walks.
  apply Forall2_length in fp_walks. by rewrite length_seq in fp_walks.
Qed.

Lemma fp_lookup v t :
  fp !! v = Some t → m !! t = Some t ∧ rtc (follows m) v t.
Proof using fp_walks.
  intros Hv.
  destruct (Forall2_lookup_r _ _ _ _ _ fp_walks Hv) as (x & Hx & H).
  apply lookup_seq in Hx as [-> _]. done.
Qed.

Lemma fp_lt v t : fp !! v = Some t → t < length m.
Proof using fp_walks.
  intros [Ht _]%fp_lookup. by eapply lookup_lt_Some.
Qed.

Lemma fp_fixed p : fp !! p = Some p ↔ m !! p = Some p.
Proof using fp_walks.
  split; [by intros [? _]%fp_lookup |]. intros Hp.
  destruct (lookup_lt_is_Some_2 fp p) as [t Ht].
  { rewrite fp_length. by eapply lookup_lt_Some. }
  destruct (fp_lookup _ _ Ht) as [_ Hrtc].
  by rewrite (follows_fixed m p t Hp Hrtc) in Ht.
Qed.

Lemma fp_resolved v : v < length m → fp !! resolved fp v = Some (resolved fp v).
Proof using fp_walks.
  intros Hv. destruct (lookup_lt_is_Some_2 fp v) as [t Ht].
  { by rewrite fp_length. }
  unfold resolved. rewrite Ht; simpl. apply fp_fixed.
  by destruct (fp_lookup _ _ Ht).
Qed.

Lemma fp_fixed_le_max p : fp !! p = Some p → p ≤ max_list fp.
Proof. intros Hp. by eapply max_list_elem_of_le, list_elem_of_lookup_2. Qed.

Lemma fp_fixed_below p :
  fp !! p = Some p → p < match fp with [] => 0 | _ => S (max_list fp) end.
Proof.
  intros Hp. pose proof (fp_fixed_le_max _ Hp) as Hle.
  clear fp_walks. destruct fp; [done |]. by apply Nat.lt_succ_r.
Qed.

(** The vertex count after [contract_vertices]. *)
Lemma fp_vcount_le :
  match fp with [] => 0 | _ => S (max_list fp) end ≤ length m.
Proof using fp_walks.
  assert (fp ≠ [] → S (max_list fp) ≤ length m) as Hmax.
  { intros [i Hi]%max_list_elem_of%list_elem_of_lookup.
    apply fp_lt in Hi. lia. }
  clear fp_walks. destruct fp; [lia | by apply Hmax].
Qed.

Lemma contraction_ranked fuel (g : Graph) :
  _fixed_points fuel m = Ok fp →
  length (vs g) = length m →
  Forall (λ e, source e < length m ∧ target e < length m) (es g) →
  contraction fuel m g =
  Ok {| vs := first_attrs (vs g) fp <$> fixed_points_of m;
        es := contracted_edge fp m <$> es g |}.
Proof using fp_walks.
  intros Hfuel Hvs Hes. unfold contraction. rewrite Hfuel.
  cbn [mbind result_bind]. unfold contract_vertices.
  rewrite decide_True by (by rewrite fp_length).
  cbn [mbind result_bind vs es].
  set (k := match fp with [] => 0 | _ => S (max_list fp) end).
  assert (k ≤ length m) as Hk by apply fp_vcount_le.
  assert (∀ p, fp !! p = Some p → p < k) as Hbelow.
  { apply fp_fixed_below. }
  rewrite length_fmap, length_seq.
  rewrite moved_indices_eq; last first.
  { apply Forall_seq. intros i ?. rewrite fp_length. lia. }
  cbn [mbind result_bind]. unfold delete_vertices.
  set (ids := filter (λ i, fp !! i ≠ Some i) (seq 0 k)).
  assert (∀ i, i < k → i ∉ ids ↔ m !! i = Some i) as Hids.
  { intros i Hi. unfold ids. rewrite list_elem_of_filter, elem_of_seq.
    rewrite <- fp_fixed. destruct (decide (fp !! i = Some i)); [| split].
    - split; [done |]. by intros _ [? _].
    - intros Hi'. destruct Hi'. split; [done | lia].
    - done. }
  rewrite decide_True; last first.
  { cbn [vs]. rewrite length_fmap, length_seq. apply Forall_forall.
    intros i [_ [_ ?]%elem_of_seq]%list_elem_of_filter. lia. }
  cbn [vs es]. f_equal. f_equal.
  - etrans;
      [exact (kept_vertices (first_attrs (vs g) fp) (λ i, i ∉ ids) k) |].
    f_equal. unfold fixed_points_of.
    rewrite (filter_seq_below (λ p, m !! p = Some p) k (length m));
      [| done | by intros i ?%fp_fixed%Hbelow].
    apply filter_in_ext. intros i [_ ?]%elem_of_seq. apply Hids. lia.
  - rewrite filter_all; last first.
    { rewrite Forall_fmap. eapply Forall_impl; [apply Hes |].
      intros e [Hs Ht]; simpl. fold (resolved fp (source e)).
      fold (resolved fp (target e)).
      split; apply Hids; try (by apply Hbelow, fp_resolved);
        by apply fp_fixed, fp_resolved. }
    rewrite <- list_fmap_compose. apply Forall_fmap_ext.
    eapply Forall_impl; [apply Hes |]. intros e [Hs Ht]. simpl.
    unfold contracted_edge. fold (resolved fp (source e)).
    fold (resolved fp (target e)).
    assert (∀ v, v < length m →
              new_id ids (resolved fp v) = position m (resolved fp v)) as Hn.
    { intros v Hv. unfold new_id, position. f_equal. apply filter_in_ext.
      intros i [_ Hi]%elem_of_seq. apply Hids.
      pose proof (Hbelow _ (fp_resolved v Hv)). lia. }
    by rewrite !Hn.
Qed.
End contraction.

(** ** Edges of the graph built by the scan *)

Lemma tuple_size_inter_size (t : tuple) :
  tuple_size t = inter_size t.1.2 t.2.2.
Proof. apply length_intersect1d. Qed.

Lemma emits_plain self (t : tuple) :
  contract_nodes self = false →
  emits self t ↔ (min_intersection self ≤ Z.of_nat (tuple_size t))%Z.
Proof.
  intros Hc. unfold emits, ge_int. rewrite Hc. simpl.
  by rewrite bool_decide_spec.
Qed.

Lemma emits_contract self (t : tuple) :
  contract_nodes self = true → NoDup t.1.2 → NoDup t.2.2 →
  emits self t ↔
  (min_intersection self ≤ Z.of_nat (tuple_size t))%Z
  ∧ ¬ t.2.2 ⊆ t.1.2 ∧ ¬ t.1.2 ⊆ t.2.2.
Proof.
  intros Hc Ha Hb. unfold emits, ge_int, tuple_size, tuple_inter.
  rewrite Hc. rewrite !andb_True, !bool_decide_spec. split.
  - intros [[H2 H1] Hm]. split_and!; [done | |].
    + intros Hsub. by apply H2, intersect1d_subseteq_r.
    + intros Hsub. by apply H1, intersect1d_subseteq_l.
  - intros (Hm & H2 & H1). split_and!; [| | done].
    + intros Hlen. by apply H2, (intersect1d_full_r t.1.2).
    + intros Hlen. by apply H1, (intersect1d_full_l _ t.2.2).
Qed.

Lemma elem_of_scanned_edges self nodes (e : Edge) :
  e ∈ es (scanned_graph self nodes) ↔
  ∃ t : tuple, e = mk_edge (store_edge_elements self) t ∧ emits self t
    ∧ t.1.1 < t.2.1 ∧ nodes.*2 !! t.1.1 = Some t.1.2
    ∧ nodes.*2 !! t.2.1 = Some t.2.2.
Proof.
  unfold scanned_graph; simpl. rewrite list_elem_of_fmap.
  setoid_rewrite list_elem_of_filter.
  setoid_rewrite elem_of_node_tuples. naive_solver.
Qed.

Lemma scanned_edge_joins self nodes i j a b (e : Edge) :
  i < j → nodes.*2 !! i = Some a → nodes.*2 !! j = Some b →
  e ∈ es (scanned_graph self nodes) → joins i j e →
  e = mk_edge (store_edge_elements self) ((i, a), (j, b))
  ∧ emits self ((i, a), (j, b)).
Proof.
  intros Hlt Hi Hj (t & -> & Hem & Hlt' & Hi' & Hj')%elem_of_scanned_edges
    Hjoin.
  destruct t as [[i' a'] [j' b']]. unfold joins in Hjoin. simpl in *.
  destruct Hjoin as [[<- <-] | [<- <-]]; [| lia].
  by simplify_eq.
Qed.

Lemma has_edge_scanned self nodes i j a b :
  i < j → nodes.*2 !! i = Some a → nodes.*2 !! j = Some b →
  has_edge (scanned_graph self nodes) i j ↔ emits self ((i, a), (j, b)).
Proof.
  intros Hlt Hi Hj. unfold has_edge. rewrite Exists_exists. split.
  - intros (e & He & Hjoin).
    by destruct (scanned_edge_joins self nodes i j a b e).
  - intros Hem. exists (mk_edge (store_edge_elements self) ((i, a), (j, b))).
    split; [| by left]. apply elem_of_scanned_edges.
    by exists ((i, a), (j, b)).
Qed.

Lemma scanned_simple self nodes :
  no_self_loops (scanned_graph self nodes)
  ∧ no_multi_edges (scanned_graph self nodes).
Proof.
  unfold no_self_loops, no_multi_edges, scanned_graph; simpl.
  set (F := filter (emits self) (combinations2 (enumerate (nodes.*2)))).
  assert (Forall (λ t : tuple, t.1.1 < t.2.1) F) as Hlt.
  { eapply Forall_impl; [apply emitted_in_range |]. by intros t [? _]. }
  split.
  - rewrite Forall_fmap. eapply Forall_impl; [apply Hlt |].
    intros t Ht. unfold compose; simpl in *. lia.
  - rewrite <- list_fmap_compose.
    rewrite (Forall_fmap_ext_1 _ tuple_idx).
    + apply (NoDup_fmap_2_strong tuple_idx); [| apply NoDup_filter].
      * intros t1 t2 [_ H1]%list_elem_of_filter [_ H2]%list_elem_of_filter.
        apply elem_of_node_tuples in H1 as (_ & H1a & H1b).
        apply elem_of_node_tuples in H2 as (_ & H2a & H2b).
        destruct t1 as [[??] [??]], t2 as [[??] [??]]; simpl in *.
        intros [= -> ->]. by simplify_eq.
      * eapply (NoDup_fmap_1 tuple_idx), NoDup_node_tuples_idx.
    + eapply Forall_impl; [apply Hlt |]. intros [[i a] [j b]] ?; simpl in *.
      unfold unordered, tuple_idx; simpl. f_equal; lia.
Qed.

Lemma fit_transform_nonempty fuel self X :
  concat X ≠ [] →
  fit_transform fuel self X =
  if contract_nodes self
  then contraction fuel (scan_mapping ((concat X).*2))
                   (scanned_graph self (concat X))
  else Ok (scanned_graph self (concat X)).
Proof. intros HX. rewrite fit_transform_eq. by destruct (concat X). Qed.

Lemma fit_transform_empty fuel self X :
  concat X = [] → fit_transform fuel self X = Raise StopIteration.
Proof. intros HX. rewrite fit_transform_eq. by rewrite HX. Qed.

Lemma fit_transform_plain fuel self X :
  contract_nodes self = false → concat X ≠ [] →
  fit_transform fuel self X = Ok (scanned_graph self (concat X)).
Proof.
  intros Hc HX. rewrite fit_transform_eq, Hc. by destruct (concat X).
Qed.

Lemma fit_transform_plain_inv fuel self X g :
  contract_nodes self = false → fit_transform fuel self X = Ok g →
  g = scanned_graph self (concat X).
Proof.
  intros Hc. rewrite fit_transform_eq, Hc.
  destruct (concat X); [done |]. congruence.
Qed.

(** With contraction on and fuel for one loop test per vertex, the walks of
    [_fixed_points] all end, and the graph returned is the scanned graph
    with its vertices merged and renumbered. *)
Lemma fit_transform_contract fuel self X :
  contract_nodes self = true → concat X ≠ [] → length (concat X) ≤ fuel →
  ∃ fp,
    _fixed_points fuel (scan_mapping ((concat X).*2)) = Ok fp
    ∧ Forall2 (λ v t, scan_mapping ((concat X).*2) !! t = Some t
                      ∧ rtc (follows (scan_mapping ((concat X).*2))) v t)
              (seq 0 (length (scan_mapping ((concat X).*2)))) fp
    ∧ fit_transform fuel self X =
      Ok {| vs := first_attrs (vertex_of <$> concat X) fp
                  <$> fixed_points_of (scan_mapping ((concat X).*2));
            es := contracted_edge fp (scan_mapping ((concat X).*2))
                  <$> es (scanned_graph self (concat X)) |}.
Proof.
  intros Hc HX Hfuel. set (ne := (concat X).*2).
  destruct (linked_scan_mapping ne) as [Hlen _].
  assert (length ne = length (concat X)) as Hne by apply length_fmap.
  destruct (fixed_points_ranked (scan_mapping ne) (rank ne)
              (scan_mapping_ranked ne) fuel) as (fp & Hfp & Hwalk); [lia |].
  exists fp. split_and!; [done | done |].
  rewrite fit_transform_nonempty, Hc by done. fold ne.
  rewrite (contraction_ranked (scan_mapping ne) fp Hwalk fuel);
    [done | done | |].
  - simpl. rewrite length_fmap, Hlen. symmetry. apply length_fmap.
  - simpl. rewrite Forall_fmap. eapply Forall_impl; [apply emitted_in_range |].
    intros t [Ht1 Ht2]. unfold compose; simpl. fold ne in Ht2 |- *.
    rewrite Hlen. split; [by etrans |done].
Qed.

(** * The claims *)

(** C1. Without contraction, the graph returned has an edge between the
    vertices [i < j] exactly when the intersection of their index sets has
    at least [min_intersection] elements, and the weight of that edge is
    the cardinality of the intersection.  A graph is returned whenever the
    cover has at least one node; duplicate-free index lists are not
    needed. *)
Theorem nerve_edges_plain fuel self X :
  contract_nodes self = false →
  (concat X ≠ [] → ∃ g, fit_transform fuel self X = Ok g)
  ∧ ∀ g, fit_transform fuel self X = Ok g →
    ∀ i j a b, i < j →
      (concat X).*2 !! i = Some a → (concat X).*2 !! j = Some b →
      (has_edge g i j ↔ (min_intersection self ≤ Z.of_nat (inter_size a b))%Z)
      ∧ ∀ e, e ∈ es g → joins i j e →
             weight e = Some (Z.of_nat (inter_size a b)).
Proof.
  intros Hc. split.
  - intros HX. eexists. by apply fit_transform_plain.
  - intros g ->%fit_transform_plain_inv i j a b Hlt Hi Hj; [| done]. split.
    + rewrite (has_edge_scanned self (concat X) i j a b), emits_plain by done.
      by rewrite tuple_size_inter_size.
    + intros e He Hjoin.
      destruct (scanned_edge_joins self (concat X) i j a b e) as [-> _];
        [done.. |].
      simpl. by rewrite tuple_size_inter_size.
Qed.

Lemma nerve_edges_plain_witness :
  ∃ g, fit_transform 0 (nerve 1 false false) cover_chain = Ok g
       ∧ (has_edge g 0 1 ↔ (1 ≤ Z.of_nat (inter_size [1; 2; 3] [3; 4; 5]))%Z).
Proof.
  destruct (nerve_edges_plain 0 (nerve 1 false false) cover_chain eq_refl)
    as [Hex Hall].
  destruct Hex as [g Hg]; [done |]. exists g. split; [done |].
  apply (Hall g Hg 0 1 [1; 2; 3]%Z [3; 4; 5]%Z); [lia | done | done].
Defined.

Lemma filter_sublist_mono {A} (P Q : A → Prop)
    `{!∀ x, Decision (P x), !∀ x, Decision (Q x)} (l : list A) :
  (∀ x, P x → Q x) → filter P l `sublist_of` filter Q l.
Proof.
  intros HPQ. induction l as [|x l IH]; [constructor |].
  rewrite !filter_cons. destruct (decide (P x)) as [HP | HP].
  - rewrite decide_True by auto. by constructor.
  - destruct (decide (Q x)); [by constructor | done].
Qed.

Lemma fmap_sublist {A B} (f : A → B) (l1 l2 : list A) :
  l1 `sublist_of` l2 → f <$> l1 `sublist_of` f <$> l2.
Proof. induction 1; csimpl; by constructor. Qed.

(** C7. Without contraction and with everything else fixed, raising
    [min_intersection] from [m1] to [m2] only removes edges: the edges
    for [m2] are a sub-list of the edges for [m1] (same endpoints, weights
    and stored elements), so every edge for [m2] is an edge for [m1] and
    there are no more of them.  The thresholds may be any integers. *)
Theorem nerve_edges_antitone fuel s X (m1 m2 : Z) g1 g2 :
  (m1 ≤ m2)%Z →
  fit_transform fuel (nerve m1 s false) X = Ok g1 →
  fit_transform fuel (nerve m2 s false) X = Ok g2 →
  es g2 `sublist_of` es g1 ∧ es g2 ⊆ es g1
  ∧ length (es g2) ≤ length (es g1).
Proof.
  intros Hm ->%fit_transform_plain_inv ->%fit_transform_plain_inv;
    [| done | done].
  assert (es (scanned_graph (nerve m2 s false) (concat X))
          `sublist_of` es (scanned_graph (nerve m1 s false) (concat X)))
    as Hsub.
  { unfold scanned_graph; simpl. apply fmap_sublist, filter_sublist_mono.
    intros t. rewrite !emits_plain by done. simpl. lia. }
  split_and!; [done | by apply sublist_subseteq | by apply sublist_length].
Qed.

Lemma nerve_edges_antitone_witness :
  ∃ g1 g2,
    fit_transform 0 (nerve 1 false false) cover_chain = Ok g1
    ∧ fit_transform 0 (nerve 2 false false) cover_chain = Ok g2
    ∧ es g2 `sublist_of` es g1 ∧ length (es g1) = 2 ∧ length (es g2) = 0.
Proof.
  eexists _, _. split; [reflexivity |]. split; [reflexivity |].
  split; [| by vm_compute].
  apply (nerve_edges_antitone 0 false cover_chain 1 2 _ _);
    [lia | reflexivity | reflexivity].
Defined.

(** ** Storing the edge elements or not *)

Lemma contract_vertices_without fp g :
  contract_vertices fp (without_edge_elements g)
  = without_edge_elements <$> contract_vertices fp g.
Proof.
  unfold contract_vertices; simpl. case_decide; [| done]. simpl.
  unfold without_edge_elements; simpl. do 2 f_equal.
  rewrite <- !list_fmap_compose. by apply list_fmap_ext.
Qed.

Lemma delete_vertices_without ids g :
  delete_vertices ids (without_edge_elements g)
  = without_edge_elements <$> delete_vertices ids g.
Proof.
  unfold delete_vertices; simpl. case_decide; [| done]. simpl.
  unfold without_edge_elements; simpl. do 2 f_equal.
  induction (es g) as [|e l IH]; [done |]. csimpl.
  rewrite !filter_cons. simpl. case_decide; csimpl; by rewrite IH.
Qed.

Lemma contraction_without fuel m g :
  contraction fuel m (without_edge_elements g)
  = without_edge_elements <$> contraction fuel m g.
Proof.
  unfold contraction. destruct (_fixed_points fuel m) as [fp| |]; [| done..].
  cbn [mbind result_bind]. rewrite contract_vertices_without.
  destruct (contract_vertices fp g) as [g'| |]; [| done..].
  cbn [fmap result_fmap mbind result_bind]. simpl vs at 1.
  destruct (moved_indices fp (seq 0 (length (vs g')))) as [ids| |]; [| done..].
  cbn [mbind result_bind]. apply delete_vertices_without.
Qed.

Lemma emits_store m s c t : emits (nerve m s c) t = emits (nerve m true c) t.
Proof. done. Qed.

Lemma scanned_graph_without m c nodes :
  scanned_graph (nerve m false c) nodes
  = without_edge_elements (scanned_graph (nerve m true c) nodes).
Proof.
  unfold scanned_graph, without_edge_elements; simpl. f_equal.
  rewrite <- list_fmap_compose. by apply list_fmap_ext.
Qed.

(** C9. The two loops of [_generate_edge_data] return the same
    [node_index_pairs], [weights] and [mapping] whatever the input and the
    other settings, and the graph built with [store_edge_elements=False]
    is the graph built with [store_edge_elements=True] with the
    [edge_elements] attribute left out (the two calls also fail alike). *)
Theorem store_edge_elements_only_adds m c ne fuel X :
  node_index_pairs (_generate_edge_data (nerve m true c) ne)
  = node_index_pairs (_generate_edge_data (nerve m false c) ne)
  ∧ weights (_generate_edge_data (nerve m true c) ne)
    = weights (_generate_edge_data (nerve m false c) ne)
  ∧ mapping (_generate_edge_data (nerve m true c) ne)
    = mapping (_generate_edge_data (nerve m false c) ne)
  ∧ fit_transform fuel (nerve m false c) X
    = without_edge_elements <$> fit_transform fuel (nerve m true c) X.
Proof.
  rewrite !generate_edge_data_eq. split_and!; [done.. |].
  rewrite !fit_transform_eq. destruct (concat X) as [|x l]; [done |].
  simpl contract_nodes. rewrite scanned_graph_without.
  destruct c; [apply contraction_without | done].
Qed.

Lemma mapping_scan self ne :
  contract_nodes self = true →
  mapping (_generate_edge_data self ne) = Some (scan_mapping ne).
Proof. intros Hc. rewrite generate_edge_data_eq; simpl. by rewrite Hc. Qed.

(** C10. With contraction on and duplicate-free index lists, the mapping
    returned by [_generate_edge_data] has one entry per vertex, and every
    vertex [v] that it sends elsewhere is sent to a vertex whose index set
    contains that of [v]; when the two sets are equal, the target is the
    lower index. *)
Theorem mapping_points_along_inclusion self (ne : list (list Z)) :
  contract_nodes self = true → Forall NoDup ne →
  ∃ M, mapping (_generate_edge_data self ne) = Some M
       ∧ length M = length ne
       ∧ ∀ v w, M !! v = Some w → w ≠ v →
           ∃ a b, ne !! v = Some a ∧ ne !! w = Some b
                  ∧ a ⊆ b ∧ (b ⊆ a → w < v).
Proof.
  intros Hc Hnd. exists (scan_mapping ne).
  destruct (linked_scan_mapping ne) as [Hlen Hlink].
  split_and!; [by apply mapping_scan | done |].
  intros v w Hv Hne.
  destruct (Hlink _ _ Hv) as [? | (a & b & Ha & Hb & H)]; [done |].
  exists a, b. split_and!; [done | done | |].
  - destruct H as [[_ Hlen'] | (_ & Hlen' & _)].
    + by apply (intersect1d_full_r b a).
    + by apply (intersect1d_full_l a b).
  - intros Hsub. destruct H as [[? _] | (_ & _ & Hne')]; [done |].
    destruct Hne'. apply intersect1d_subseteq_r; [| done].
    rewrite Forall_forall in Hnd. by eapply Hnd, list_elem_of_lookup_2.
Qed.

Lemma mapping_points_along_inclusion_witness :
  ∃ M, mapping (_generate_edge_data (nerve 1 false true)
                  [[1; 2]; [1; 2; 3]; [1; 2]]%Z) = Some M
       ∧ M = [1; 1; 1].
Proof.
  destruct (mapping_points_along_inclusion (nerve 1 false true)
              [[1; 2]; [1; 2; 3]; [1; 2]]%Z eq_refl) as (M & HM & _).
  { apply (bool_decide_unpack _). by vm_compute. }
  exists M. split; [done |]. vm_compute in HM. congruence.
Defined.

(** C8. On the mapping that the pair scan returns with contraction on,
    [_fixed_points] returns as soon as it has fuel for one loop test per
    vertex: every [while] loop exits, and the entry it appends for [v] is a
    fixed point of the mapping that is reached from [v] by following the
    mapping finitely many times.  Duplicate-free index lists are not
    needed. *)
Theorem fixed_points_terminates self (ne : list (list Z)) fuel :
  contract_nodes self = true → length ne ≤ fuel →
  ∃ M fp, mapping (_generate_edge_data self ne) = Some M
          ∧ _fixed_points fuel M = Ok fp
          ∧ length fp = length ne
          ∧ ∀ v, v < length ne →
              ∃ p, fp !! v = Some p ∧ M !! p = Some p
                   ∧ rtc (follows M) v p.
Proof.
  intros Hc Hfuel. destruct (linked_scan_mapping ne) as [Hlen _].
  destruct (fixed_points_ranked (scan_mapping ne) (rank ne)
              (scan_mapping_ranked ne) fuel) as (fp & Hfp & Hwalk); [lia |].
  exists (scan_mapping ne), fp.
  pose proof (fp_length _ _ Hwalk) as Hfplen.
  split_and!; [by apply mapping_scan | done | lia |].
  intros v Hv. destruct (lookup_lt_is_Some_2 fp v) as [p Hp]; [lia |].
  exists p. split; [done |]. by apply (fp_lookup _ _ Hwalk).
Qed.

Lemma fixed_points_terminates_witness :
  ∃ M fp, mapping (_generate_edge_data (nerve 1 false true)
                     [[1]; [1; 2]; [1; 2; 3]]%Z) = Some M
          ∧ _fixed_points 3 M = Ok fp ∧ M = [2; 2; 2] ∧ fp = [2; 2; 2].
Proof.
  destruct (fixed_points_terminates (nerve 1 false true)
              [[1]; [1; 2]; [1; 2; 3]]%Z 3 eq_refl)
    as (M & fp & HM & Hfp & _); [simpl; lia |].
  exists M, fp. vm_compute in HM. injection HM as <-.
  vm_compute in Hfp. injection Hfp as <-. done.
Defined.

Lemma StronglySorted_seq i n : StronglySorted lt (seq i n).
Proof.
  revert i. induction n as [|n IH]; intros i; simpl; constructor; [done |].
  apply Forall_seq. intros j ?. lia.
Qed.

Lemma StronglySorted_filter {A} (R : relation A) (P : A → Prop)
    `{!∀ x, Decision (P x)} (l : list A) :
  StronglySorted R l → StronglySorted R (filter P l).
Proof.
  induction 1 as [|x l _ IH Hx]; [constructor |].
  rewrite filter_cons. case_decide; [| done]. constructor; [done |].
  apply Forall_forall. intros y [_ Hy]%list_elem_of_filter.
  rewrite Forall_forall in Hx. by apply Hx.
Qed.

(** C2. With contraction on (and fuel for one loop test per vertex), the
    vertices of the graph returned are the fixed points of the resolved
    mapping [fixed_points_mapping], which are also the fixed points of the
    mapping of the scan: the [k]-th vertex returned stands for the [k]-th
    fixed point in increasing order of the old vertex ids, so ids are
    contiguous and the old order is kept.  (Its attributes are those that
    [combine_attrs="first"] gives the group sent to that fixed point.) *)
Theorem contracted_vertices_are_fixed_points fuel self X :
  contract_nodes self = true → concat X ≠ [] → length (concat X) ≤ fuel →
  ∃ g M fp,
    mapping (_generate_edge_data self ((concat X).*2)) = Some M
    ∧ _fixed_points fuel M = Ok fp
    ∧ fit_transform fuel self X = Ok g
    ∧ (∀ p, fp !! p = Some p ↔ M !! p = Some p)
    ∧ vs g = first_attrs (vertex_of <$> concat X) fp
             <$> filter (λ p, fp !! p = Some p) (seq 0 (length (concat X)))
    ∧ StronglySorted lt
        (filter (λ p, fp !! p = Some p) (seq 0 (length (concat X)))).
Proof.
  intros Hc HX Hfuel.
  destruct (fit_transform_contract fuel self X Hc HX Hfuel)
    as (fp & Hfp & Hwalk & Hg).
  eexists _, (scan_mapping ((concat X).*2)), fp.
  split_and!; [by apply mapping_scan | done | exact Hg | ..].
  - apply (fp_fixed _ _ Hwalk).
  - simpl. f_equal. unfold fixed_points_of.
    destruct (linked_scan_mapping ((concat X).*2)) as [-> _].
    rewrite length_fmap. apply list_filter_iff. intros p.
    symmetry. apply (fp_fixed _ _ Hwalk).
  - apply StronglySorted_filter, StronglySorted_seq.
Qed.

Lemma contracted_vertices_are_fixed_points_witness :
  ∃ g fp,
    _fixed_points 3 (scan_mapping ((concat cover_shadow).*2)) = Ok fp
    ∧ fit_transform 3 (nerve 1 false true) cover_shadow = Ok g
    ∧ fp = [1; 1; 2] ∧ vs g = [attrs 0 0 [1]; attrs 1 0 [2; 4]]%Z.
Proof.
  destruct (contracted_vertices_are_fixed_points 3 (nerve 1 false true)
              cover_shadow eq_refl)
    as (g & M & fp & HM & Hfp & Hg & _ & Hvs & _); [done | simpl; lia |].
  exists g, fp. vm_compute in HM. injection HM as <-.
  vm_compute in Hfp. injection Hfp as <-.
  split_and!; [by vm_compute | done | done |].
  rewrite Hvs. by vm_compute.
Defined.

(** C3, as stated, fails: with contraction on, two vertices joined by an
    edge can both be sent to the same fixed point, which leaves a
    self-loop, and two edges can end between the same pair of fixed
    points. *)
Lemma contraction_breaks_simplicity :
  (∃ g, fit_transform 3 (nerve 1 false true) cover_loop = Ok g
        ∧ ¬ no_self_loops g)
  ∧ (∃ g, fit_transform 3 (nerve 1 false true) cover_twice = Ok g
          ∧ ¬ no_multi_edges g).
Proof.
  split; eexists; (split; [by vm_compute |]).
  - intros H. apply Forall_cons_1 in H as [H _]. by simpl in H.
  - intros H. apply NoDup_cons_1_1 in H. apply H. by left.
Qed.

(** C3, amended. Without contraction the graph returned has no self-loop
    and at most one edge per unordered pair of vertices, whatever the
    cover, [min_intersection] and [store_edge_elements]. *)
Theorem nerve_simple_without_contraction fuel self X g :
  contract_nodes self = false → fit_transform fuel self X = Ok g →
  no_self_loops g ∧ no_multi_edges g.
Proof.
  intros Hc ->%fit_transform_plain_inv; [| done]. apply scanned_simple.
Qed.

Lemma nerve_simple_without_contraction_witness :
  ∃ g, fit_transform 0 (nerve 0 true false) cover_loop = Ok g
       ∧ length (es g) = 3 ∧ no_self_loops g ∧ no_multi_edges g.
Proof.
  eexists. split; [reflexivity |]. split; [by vm_compute |].
  apply (nerve_simple_without_contraction 0 (nerve 0 true false) cover_loop);
    reflexivity.
Defined.

(** C4, as stated, fails: in the graph returned for [cover_shadow] the two
    vertices carry the index lists [[1]] and [[2; 4]], which do not meet,
    and yet they are joined by an edge. *)
Lemma contracted_edge_without_intersection :
  ∃ g, fit_transform 3 (nerve 1 false true) cover_shadow = Ok g
       ∧ node_elements <$> vs g !! 0 = Some (Some [1]%Z)
       ∧ node_elements <$> vs g !! 1 = Some (Some [2; 4]%Z)
       ∧ has_edge g 0 1
       ∧ ¬ (1 ≤ Z.of_nat (inter_size [1] [2; 4]))%Z.
Proof.
  eexists. split; [by vm_compute |]. split_and!; [done | done | |].
  - apply Exists_cons_hd. by left.
  - by vm_compute.
Qed.

(** C4, amended. With contraction on and duplicate-free index lists, the
    pair scan joins the vertices [i < j] (ids before contraction) exactly
    when their intersection has at least [min_intersection] elements and
    neither index set contains the other; the graph returned has one edge
    for each edge of the scan, its endpoints replaced by the new ids of
    the fixed points they resolve to. *)
Theorem nerve_edges_contract fuel self X :
  contract_nodes self = true → Forall NoDup ((concat X).*2) →
  concat X ≠ [] → length (concat X) ≤ fuel →
  ∃ g M fp,
    mapping (_generate_edge_data self ((concat X).*2)) = Some M
    ∧ _fixed_points fuel M = Ok fp
    ∧ fit_transform fuel self X = Ok g
    ∧ (∀ i j a b, i < j →
         (concat X).*2 !! i = Some a → (concat X).*2 !! j = Some b →
         has_edge (scanned_graph self (concat X)) i j ↔
         (min_intersection self ≤ Z.of_nat (inter_size a b))%Z
         ∧ ¬ a ⊆ b ∧ ¬ b ⊆ a)
    ∧ es g = contracted_edge fp M <$> es (scanned_graph self (concat X)).
Proof.
  intros Hc Hnd HX Hfuel.
  destruct (fit_transform_contract fuel self X Hc HX Hfuel)
    as (fp & Hfp & Hwalk & Hg).
  eexists _, (scan_mapping ((concat X).*2)), fp.
  split_and!; [by apply mapping_scan | done | exact Hg | | done].
  intros i j a b Hlt Hi Hj. rewrite Forall_forall in Hnd.
  rewrite (has_edge_scanned self (concat X) i j a b) by done.
  rewrite emits_contract; simpl;
    [| done | by eapply Hnd, list_elem_of_lookup_2..].
  rewrite tuple_size_inter_size; simpl. tauto.
Qed.

Lemma nerve_edges_contract_witness :
  ∃ g, fit_transform 3 (nerve 1 false true) cover_twice = Ok g
       ∧ es g = [edge 0 1 1; edge 0 1 1].
Proof.
  destruct (nerve_edges_contract 3 (nerve 1 false true) cover_twice eq_refl)
    as (g & M & fp & HM & Hfp & Hg & _ & Hes).
  { apply (bool_decide_unpack _). by vm_compute. }
  { done. }
  { simpl; lia. }
  exists g. split; [done |]. rewrite Hes.
  vm_compute in HM. injection HM as <-.
  vm_compute in Hfp. injection Hfp as <-. by vm_compute.
Defined.

(** C5, as stated, fails: the vertex that survives carries the attributes
    of vertex 0, the first of the two merged vertices, not those of
    vertex 1. *)
Lemma nested_cover_keeps_first_not_second :
  ¬ ∃ g, fit_transform 2 (nerve 1 false true) cover_nested = Ok g
         ∧ vs g = [attrs 0 1 [1; 2; 3]]%Z ∧ es g = [].
Proof. intros (g & Hg & Hvs & _). vm_compute in Hg. by simplify_eq. Qed.

(** C5, amended. For the cover [[(0,0,[1,2])], [(0,1,[1,2,3])]] with
    contraction on, whatever [min_intersection] and
    [store_edge_elements], the graph returned has no edge and a single
    vertex, with the attributes of vertex 0 (labels 0 and 0, elements
    [1, 2]). *)
Theorem nested_cover_contracts_to_first k m s :
  fit_transform (2 + k) (nerve m s true) cover_nested
  = Ok {| vs := [attrs 0 0 [1; 2]]%Z; es := [] |}.
Proof.
  rewrite fit_transform_nonempty by done. simpl contract_nodes. cbv iota.
  assert (scan_mapping ((concat cover_nested).*2) = [1; 1]) as ->
    by by vm_compute.
  assert (es (scanned_graph (nerve m s true) (concat cover_nested)) = [])
    as Hes by by vm_compute.
  unfold contraction.
  assert (_fixed_points (2 + k) [1; 1] = Ok [1; 1]) as -> by done.
  cbn [mbind result_bind]. unfold contract_vertices.
  rewrite decide_True by done. cbn [mbind result_bind vs es]. rewrite Hes.
  by vm_compute.
Qed.

(** C6, as stated, fails: a non-positive [min_intersection] is accepted
    and a graph is returned. *)
Lemma non_positive_threshold_accepted :
  (min_intersection (nerve 0 false false) ≤ 0)%Z
  ∧ fit_transform 0 (nerve 0 false false) cover_chain
    = Ok {| vs := [attrs 0 0 [1; 2; 3]; attrs 0 1 [3; 4; 5];
                   attrs 1 0 [5; 6; 7]]%Z;
            es := [edge 0 1 1; edge 0 2 0; edge 1 2 1] |}.
Proof. split; [done | by vm_compute]. Qed.

(** C6, amended. [fit_transform] validates nothing.  A cover without any
    node makes it raise [StopIteration] (when it reads the first attribute
    column, the empty graph object being already built), so that no graph
    is returned; a non-positive [min_intersection] is accepted, and
    without contraction the graph returned then joins every pair of
    vertices. *)
Theorem no_input_validation fuel self X :
  (concat X = [] → fit_transform fuel self X = Raise StopIteration)
  ∧ (concat X ≠ [] → contract_nodes self = false →
     (min_intersection self ≤ 0)%Z →
     ∃ g, fit_transform fuel self X = Ok g
          ∧ ∀ i j, i < j < length (concat X) → has_edge g i j).
Proof.
  split.
  - intros HX. rewrite fit_transform_eq. by rewrite HX.
  - intros HX Hc Hm. eexists. split; [by apply fit_transform_plain |].
    intros i j [Hij Hj].
    destruct (lookup_lt_is_Some_2 ((concat X).*2) i) as [a Ha].
    { rewrite length_fmap. by etrans. }
    destruct (lookup_lt_is_Some_2 ((concat X).*2) j) as [b Hb].
    { by rewrite length_fmap. }
    rewrite (has_edge_scanned self (concat X) i j a b) by done.
    apply emits_plain; [done | lia].
Qed.

Lemma no_input_validation_witness :
  fit_transform 0 (nerve 1 false false) [[]; []] = Raise StopIteration
  ∧ ∃ g, fit_transform 0 (nerve (-1) false false) cover_chain = Ok g
         ∧ has_edge g 0 2.
Proof.
  split.
  - by apply (no_input_validation 0 (nerve 1 false false) [[]; []]).
  - destruct (no_input_validation 0 (nerve (-1) false false) cover_chain)
      as [_ H].
    destruct H as (g & Hg & Hall); [done | done | done |].
    exists g. split; [done |]. apply Hall. simpl. lia.
Defined.

(** * Further properties of the module *)

(** ** _fixed_points on an arbitrary mapping *)

Lemma for_each_Ok_inv {A B} (f : A → result B) l ys :
  for_each f l = Ok ys → Forall2 (λ x y, f x = Ok y) l ys.
Proof.
  revert ys. induction l as [|x l IH]; intros ys; simpl.
  - intros [= <-]. constructor.
  - destruct (f x) as [y| |] eqn:Hx; [| done..]. cbn [mbind result_bind].
    destruct (for_each f l) as [ys'| |]; [| done..].
    cbn [mbind result_bind]. intros [= <-]. constructor; [done |]. by apply IH.
Qed.

Lemma getitem_Ok_inv {A} (l : list A) i x : getitem l i = Ok x → l !! i = Some x.
Proof. unfold getitem. by destruct (l !! i); intros [= ->]. Qed.

Lemma fixed_points_while_Ok_inv fuel m j k t :
  (∃ u, m !! j = Some u ∧ (k = u ∨ m !! u = Some k)) →
  fixed_points_while fuel m j k = Ok t →
  rtc (follows m) j t ∧ ∃ u, m !! t = Some u ∧ m !! u = Some t.
Proof.
  revert j k. induction fuel as [|fuel IH]; intros j k Hk; [done |].
  simpl. case_decide as Hjk.
  - destruct (getitem m j) as [j'| |] eqn:Hj; [| done..].
    cbn [mbind result_bind].
    destruct (getitem m j') as [mj| |] eqn:Hmj; [| done..].
    cbn [mbind result_bind].
    destruct (getitem m mj) as [k'| |] eqn:Hk'; [| done..].
    cbn [mbind result_bind]. intros Ht.
    apply getitem_Ok_inv in Hj, Hmj, Hk'.
    destruct (IH j' k') as [Hrtc Hcyc]; [by eauto | done |].
    split; [by eapply rtc_l | done].
  - intros [= <-]. split; [done |].
    assert (j = k) as <- by (destruct (decide (j = k)); done).
    destruct Hk as (u & Hu & [-> | Huk]); eauto.
Qed.

(** When [_fixed_points] returns, it returns one entry per vertex, every
    entry of the mapping is a valid index, and the entry for [i] is
    reached from [i] by following the mapping and lies on a cycle of the
    mapping of length one or two: a fixed point, or one of two vertices
    mapped to each other. *)
Theorem fixed_points_returns fuel (m fp : list nat) :
  _fixed_points fuel m = Ok fp →
  length fp = length m
  ∧ Forall (λ w, w < length m) m
  ∧ ∀ i t, fp !! i = Some t →
      rtc (follows m) i t ∧ ∃ u, m !! t = Some u ∧ m !! u = Some t.
Proof.
  intros Hfp%for_each_Ok_inv.
  pose proof (Forall2_length _ _ _ Hfp) as Hlen. rewrite length_seq in Hlen.
  split_and!; [done | |].
  - apply Forall_forall. intros w [i Hi]%list_elem_of_lookup.
    pose proof (lookup_lt_Some _ _ _ Hi) as Hlt.
    destruct (lookup_lt_is_Some_2 fp i) as [t Ht]; [lia |].
    destruct (Forall2_lookup_r _ _ _ _ _ Hfp Ht) as (i' & Hi' & Hrun).
    apply lookup_seq in Hi' as [-> _]. simpl in Hrun.
    rewrite (getitem_Ok _ _ _ Hi) in Hrun. cbn [mbind result_bind] in Hrun.
    destruct fuel as [|fuel]; [done |]. simpl in Hrun.
    case_decide as Hne; [| by assert (i = w) as <- by
                                (destruct (decide (i = w)); done)].
    rewrite (getitem_Ok _ _ _ Hi) in Hrun. cbn [mbind result_bind] in Hrun.
    destruct (getitem m w) as [mj| |] eqn:Hw; [| done..].
    apply getitem_Ok_inv in Hw. by eapply lookup_lt_Some.
  - intros i t Ht.
    destruct (Forall2_lookup_r _ _ _ _ _ Hfp Ht) as (i' & Hi' & Hrun).
    apply lookup_seq in Hi' as [-> _]. simpl in Hrun.
    destruct (getitem m i) as [k| |] eqn:Hi; [| done..].
    apply getitem_Ok_inv in Hi. cbn [mbind result_bind] in Hrun.
    eapply fixed_points_while_Ok_inv; [| done]. eauto.
Qed.

Lemma fixed_points_returns_witness :
  _fixed_points 2 [1; 0; 0] = Ok [1; 0; 0]
  ∧ rtc (follows [1; 0; 0]) 2 0
  ∧ ∃ u, [1; 0; 0] !! 0 = Some u ∧ [1; 0; 0] !! u = Some 0.
Proof.
  split; [done |].
  by apply (fixed_points_returns 2 [1; 0; 0] [1; 0; 0] eq_refl).
Defined.

(** ** Which vertices the contraction keeps, and where the others go *)

Lemma link_subseteq ne v w :
  link ne v w → ∃ a b, ne !! v = Some a ∧ ne !! w = Some b ∧ a ⊆ b.
Proof.
  intros (a & b & Ha & Hb & H). exists a, b. split_and!; [done | done |].
  destruct H as [[_ Hlen] | (_ & Hlen & _)].
  - by apply (intersect1d_full_r b a).
  - by apply (intersect1d_full_l a b).
Qed.

Lemma follows_subseteq ne m v p a :
  linked ne m → rtc (follows m) v p → ne !! v = Some a →
  ∃ b, ne !! p = Some b ∧ a ⊆ b.
Proof.
  intros [_ Hlink] Hrtc. revert a.
  induction Hrtc as [v | v w p Hvw _ IH]; intros a Ha; [by exists a |].
  destruct (Hlink _ _ Hvw) as [-> | Hl]; [by apply IH |].
  destruct (link_subseteq _ _ _ Hl) as (a' & b & Ha' & Hb & Hab).
  simplify_eq. destruct (IH b Hb) as (c & Hc & Hbc).
  exists c. split; [done |]. by etrans.
Qed.

(** With contraction on, the vertex that [v] resolves to is a fixed point
    of the mapping whose index set contains the index set of [v]. *)
Theorem resolved_vertex_contains self (ne : list (list Z)) fuel :
  contract_nodes self = true → length ne ≤ fuel →
  ∃ M fp, mapping (_generate_edge_data self ne) = Some M
          ∧ _fixed_points fuel M = Ok fp
          ∧ ∀ v a, ne !! v = Some a →
              ∃ p b, fp !! v = Some p ∧ fp !! p = Some p
                     ∧ ne !! p = Some b ∧ a ⊆ b.
Proof.
  intros Hc Hfuel. pose proof (linked_scan_mapping ne) as Hlinked.
  destruct (fixed_points_ranked (scan_mapping ne) (rank ne)
              (scan_mapping_ranked ne) fuel) as (fp & Hfp & Hwalk).
  { destruct Hlinked as [-> _]. done. }
  exists (scan_mapping ne), fp. split_and!; [by apply mapping_scan | done |].
  intros v a Ha. destruct (lookup_lt_is_Some_2 fp v) as [p Hp].
  { rewrite (fp_length _ _ Hwalk). destruct Hlinked as [-> _].
    by eapply lookup_lt_Some. }
  destruct (fp_lookup _ _ Hwalk _ _ Hp) as [Hfix Hrtc].
  destruct (follows_subseteq ne _ v p a Hlinked Hrtc Ha) as (b & Hb & Hab).
  exists p, b. split_and!; [done | | done | done].
  by apply (fp_fixed _ _ Hwalk).
Qed.

Lemma resolved_vertex_contains_witness :
  ∃ fp, _fixed_points 3 (scan_mapping [[1]; [1; 2]; [1; 2; 3]]%Z) = Ok fp
        ∧ fp !! 0 = Some 2.
Proof.
  destruct (resolved_vertex_contains (nerve 1 false true)
              [[1]; [1; 2]; [1; 2; 3]]%Z 3 eq_refl)
    as (M & fp & HM & Hfp & _); [simpl; lia |].
  vm_compute in HM. injection HM as <-. exists fp. split; [done |].
  vm_compute in Hfp. by injection Hfp as <-.
Defined.

Lemma map_step_length m t : length (map_step m t) = length m.
Proof. unfold map_step. repeat case_decide; by rewrite ?length_insert. Qed.

Lemma map_step_fixed m (t : tuple) v :
  t.1.1 ≠ t.2.1 → t.1.1 < length m → t.2.1 < length m →
  map_step m t !! v = Some v ↔ m !! v = Some v ∧ ¬ writes t v.
Proof.
  intros Hne H1 H2. unfold map_step, writes.
  repeat case_decide; rewrite ?list_lookup_insert_Some;
    intuition (try lia; try congruence).
Qed.

Lemma foldl_map_step_fixed (l : list tuple) m v :
  Forall (λ t : tuple, t.1.1 < t.2.1 ∧ t.2.1 < length m) l →
  foldl map_step m l !! v = Some v ↔
  m !! v = Some v ∧ Forall (λ t, ¬ writes t v) l.
Proof.
  revert m. induction l as [|t l IH]; intros m Hl; simpl.
  - split; [by intros ?; split | by intros [? _]].
  - apply Forall_cons_1 in Hl as [[Ht1 Ht2] Hl].
    rewrite IH by (by rewrite map_step_length).
    rewrite map_step_fixed by lia. rewrite Forall_cons. tauto.
Qed.

(** With contraction on and duplicate-free index lists, the vertex [v] is
    a fixed point of the mapping returned by the scan (so that it is kept
    by the contraction) exactly when every other vertex whose index set
    contains that of [v] has the same index set and a higher index: the
    set of [v] is maximal for inclusion, and [v] is the first vertex that
    has it. *)
Theorem fixed_point_iff_first_maximal self (ne : list (list Z)) v a :
  contract_nodes self = true → Forall NoDup ne → ne !! v = Some a →
  ∃ M, mapping (_generate_edge_data self ne) = Some M
       ∧ (M !! v = Some v ↔
          ∀ w b, w ≠ v → ne !! w = Some b → a ⊆ b → b ⊆ a ∧ v < w).
Proof.
  intros Hc Hnd Ha. exists (scan_mapping ne).
  split; [by apply mapping_scan |]. rewrite Forall_forall in Hnd.
  assert (NoDup a) as Hnda by by eapply Hnd, list_elem_of_lookup_2.
  unfold scan_mapping. rewrite foldl_map_step_fixed; last first.
  { rewrite length_seq. apply Forall_forall. intros t Ht.
    apply elem_of_node_tuples in Ht as (? & _ & Hj).
    split; [done |]. by eapply lookup_lt_Some. }
  rewrite lookup_seq, Forall_forall. split.
  - intros [_ Hnw] w b Hwv Hb Hab.
    assert (NoDup b) as Hndb by by eapply Hnd, list_elem_of_lookup_2.
    destruct (decide (w < v)) as [Hlt | Hge].
    + destruct (Hnw ((w, b), (v, a))).
      { apply elem_of_node_tuples. done. }
      left. split; [| done]. by apply intersect1d_subseteq_r.
    + assert (v < w) as Hlt by lia.
      assert (length (intersect1d a b) = length a) as Hsize
        by by apply intersect1d_subseteq_l.
      destruct (decide (length (intersect1d a b) = length b)) as [Hb' | Hb'].
      * split; [| done]. by apply (intersect1d_full_r a b).
      * destruct (Hnw ((v, a), (w, b))).
        { apply elem_of_node_tuples. done. }
        right. done.
  - intros Hmax. split; [split; [done | by eapply lookup_lt_Some] |].
    intros [[i x] [j y]] (Hij & Hi & Hj)%elem_of_node_tuples; simpl in *.
    unfold writes, tuple_size, tuple_inter; simpl.
    intros [[Hsize ->] | (Hny & Hsize & ->)]; simplify_eq.
    + destruct (Hmax i x) as [_ ?]; [lia | done | | lia].
      by apply (intersect1d_full_r x a).
    + destruct (Hmax j y) as [Hya _]; [lia | done | |].
      { by apply (intersect1d_full_l a y). }
      apply Hny, intersect1d_subseteq_r; [| done].
      by eapply Hnd, list_elem_of_lookup_2.
Qed.

Lemma fixed_point_iff_first_maximal_witness :
  scan_mapping [[1; 2]; [3]; [1; 2]]%Z !! 0 = Some 0.
Proof.
  destruct (fixed_point_iff_first_maximal (nerve 1 false true)
              [[1; 2]; [3]; [1; 2]]%Z 0 [1; 2]%Z eq_refl)
    as (M & HM & Hiff); [| done |].
  { apply (bool_decide_unpack _). by vm_compute. }
  vm_compute in HM. injection HM as <-. done.
Defined.

(** ** Edge attributes *)

Lemma contract_vertices_edges fp g g' e' :
  contract_vertices fp g = Ok g' → e' ∈ es g' →
  ∃ e, e ∈ es g ∧ weight e' = weight e
       ∧ edge_elements e' = edge_elements e.
Proof.
  unfold contract_vertices. case_decide; [| done]. intros [= <-]. simpl.
  intros (e & -> & He)%list_elem_of_fmap. by exists e.
Qed.

Lemma delete_vertices_edges ids g g' e' :
  delete_vertices ids g = Ok g' → e' ∈ es g' →
  ∃ e, e ∈ es g ∧ weight e' = weight e
       ∧ edge_elements e' = edge_elements e.
Proof.
  unfold delete_vertices. case_decide; [| done]. intros [= <-]. simpl.
  intros (e & -> & [_ He]%list_elem_of_filter)%list_elem_of_fmap.
  by exists e.
Qed.

Lemma contraction_edges fuel m g g' e' :
  contraction fuel m g = Ok g' → e' ∈ es g' →
  ∃ e, e ∈ es g ∧ weight e' = weight e
       ∧ edge_elements e' = edge_elements e.
Proof.
  unfold contraction.
  destruct (_fixed_points fuel m) as [fp| |]; [| done..].
  cbn [mbind result_bind].
  destruct (contract_vertices fp g) as [g1| |] eqn:Hg1; [| done..].
  cbn [mbind result_bind].
  destruct (moved_indices fp (seq 0 (length (vs g1)))) as [ids| |];
    [| done..].
  cbn [mbind result_bind]. intros Hg' He'.
  destruct (delete_vertices_edges _ _ _ _ Hg' He') as (e1 & He1 & Hw1 & Hx1).
  destruct (contract_vertices_edges _ _ _ _ Hg1 He1) as (e & He & Hw & Hx).
  exists e. split_and!; [done | congruence | congruence].
Qed.

Lemma scanned_well_attributed self nodes :
  Forall (well_attributed self) (es (scanned_graph self nodes)).
Proof.
  apply Forall_forall.
  intros e (t & -> & Hem & _)%elem_of_scanned_edges.
  exists (tuple_size t). split_and!; [done | |].
  - unfold emits, ge_int in Hem. apply andb_True in Hem as [_ Hem].
    by apply bool_decide_spec in Hem.
  - simpl. destruct (store_edge_elements self); [| done].
    exists (tuple_inter t). split_and!; [done | done | |].
    + apply NoDup_intersect1d.
    + apply (Sorted_merge_sort Z.le).
Qed.

(** In every graph that [fit_transform] returns, with or without
    contraction, each edge has a weight that is a cardinality and is at
    least [min_intersection]; with [store_edge_elements] on, its
    [edge_elements] are a sorted list without repetition whose length is
    the weight, and otherwise it has no [edge_elements]. *)
Theorem edges_well_attributed fuel self X g :
  fit_transform fuel self X = Ok g → Forall (well_attributed self) (es g).
Proof.
  rewrite fit_transform_eq. destruct (concat X) as [|x l] eqn:E; [done |].
  rewrite <- E. clear x l E.
  pose proof (scanned_well_attributed self (concat X)) as Hsc.
  destruct (contract_nodes self); [| by intros [= <-]].
  intros Hg. apply Forall_forall. intros e' He'.
  destruct (contraction_edges _ _ _ _ _ Hg He') as (e & He & Hw & Hx).
  rewrite Forall_forall in Hsc. destruct (Hsc e He) as (n & Hn & Hmin & Hel).
  exists n. rewrite Hw, Hx. done.
Qed.

Lemma edges_well_attributed_witness :
  ∃ g, fit_transform 3 (nerve 1 true true) cover_twice = Ok g
       ∧ Forall (well_attributed (nerve 1 true true)) (es g)
       ∧ length (es g) = 2.
Proof.
  eexists. split; [reflexivity |]. split; [| by vm_compute].
  apply (edges_well_attributed 3 (nerve 1 true true) cover_twice).
  reflexivity.
Defined.

(** ** What contraction keeps *)

Lemma position_lt m p :
  m !! p = Some p → position m p < length (fixed_points_of m).
Proof.
  intros Hp. pose proof (lookup_lt_Some _ _ _ Hp) as Hlt.
  unfold position, fixed_points_of.
  replace (length m) with (p + S (length m - S p)) by lia.
  rewrite seq_app, filter_app, length_app. simpl.
  rewrite filter_cons, decide_True by done. simpl. lia.
Qed.

(** With contraction on (and fuel for one loop test per vertex), the
    graph returned has exactly one edge per pair listed by the scan, at
    least one vertex and at most as many as there are nodes in the cover,
    and both ends of every edge are vertices of the graph. *)
Theorem contraction_keeps_every_edge fuel self X :
  contract_nodes self = true → concat X ≠ [] → length (concat X) ≤ fuel →
  ∃ g, fit_transform fuel self X = Ok g
       ∧ length (es g)
         = length (node_index_pairs
                     (_generate_edge_data self ((concat X).*2)))
       ∧ 1 ≤ length (vs g) ≤ length (concat X)
       ∧ Forall (λ e, source e < length (vs g) ∧ target e < length (vs g))
                (es g).
Proof.
  intros Hc HX Hfuel. unfold node in *.
  destruct (fit_transform_contract fuel self X Hc HX Hfuel)
    as (fp & Hfp & Hwalk & Hg).
  pose proof (fp_length _ _ Hwalk) as Hfl.
  destruct (linked_scan_mapping ((concat X).*2)) as [Hlen _].
  rewrite Hlen, length_fmap in Hfl.
  assert (∀ v, v < length (concat X) →
            position (scan_mapping ((concat X).*2)) (resolved fp v)
            < length (fixed_points_of (scan_mapping ((concat X).*2))))
    as Hpos.
  { intros v Hv. apply position_lt, (fp_fixed _ _ Hwalk),
      (fp_resolved _ _ Hwalk). by rewrite Hlen, length_fmap. }
  eexists. split; [exact Hg |]. simpl. rewrite !length_fmap.
  split_and!.
  - rewrite generate_edge_data_eq. simpl. by rewrite length_fmap.
  - assert (0 < length (concat X)) as H0
      by (destruct (concat X); [done | simpl; lia]).
    specialize (Hpos 0 H0). lia.
  - unfold fixed_points_of.
    etrans; [apply length_filter |]. by rewrite length_seq, Hlen, length_fmap.
  - rewrite !Forall_fmap. eapply Forall_impl; [apply emitted_in_range |].
    intros t [Ht1 Ht2]. rewrite length_fmap in Ht2.
    unfold compose; simpl. split; apply Hpos; [by etrans | done].
Qed.

Lemma contraction_keeps_every_edge_witness :
  ∃ g, fit_transform 3 (nerve 1 false true) cover_loop = Ok g
       ∧ length (es g) = 1 ∧ length (vs g) = 1.
Proof.
  destruct (contraction_keeps_every_edge 3 (nerve 1 false true) cover_loop
              eq_refl) as (g & Hg & _); [done | simpl; lia |].
  exists g. split; [done |]. vm_compute in Hg. by injection Hg as <-.
Defined.

(** With contraction on, each vertex returned has the attributes of one
    node of the cover: the first node, in flattening order, among those
    that resolve to the fixed point the vertex stands for (so not
    necessarily the node with the largest index set). *)
Theorem contracted_vertex_takes_first fuel self X :
  contract_nodes self = true → concat X ≠ [] → length (concat X) ≤ fuel →
  ∃ g fp,
    _fixed_points fuel (scan_mapping ((concat X).*2)) = Ok fp
    ∧ fit_transform fuel self X = Ok g
    ∧ ∀ k v, vs g !! k = Some v →
        ∃ p i x, fp !! p = Some p ∧ fp !! i = Some p ∧ i ≤ p
                 ∧ (∀ i', i' < i → fp !! i' ≠ Some p)
                 ∧ concat X !! i = Some x ∧ v = vertex_of x.
Proof.
  intros Hc HX Hfuel. unfold node in *.
  destruct (fit_transform_contract fuel self X Hc HX Hfuel)
    as (fp & Hfp & Hwalk & Hg).
  pose proof (fp_length _ _ Hwalk) as Hfl.
  destruct (linked_scan_mapping ((concat X).*2)) as [Hlen _].
  rewrite Hlen, length_fmap in Hfl.
  eexists _, fp. split_and!; [done | exact Hg |]. simpl.
  intros k v (p & -> & Hp)%list_lookup_fmap_Some.
  apply list_elem_of_lookup_2, list_elem_of_filter in Hp as [Hp _].
  apply (fp_fixed _ _ Hwalk) in Hp as Hp'.
  unfold first_attrs.
  destruct (list_find_elem_of (λ t, t = p) fp p) as [[i t] Hfind];
    [by eapply list_elem_of_lookup_2 | done |].
  rewrite Hfind. apply list_find_Some in Hfind as (Hi & -> & Hmin).
  assert (i < length (concat X)) as Hlt.
  { apply lookup_lt_Some in Hi. by rewrite Hfl in Hi. }
  destruct (lookup_lt_is_Some_2 (concat X) i Hlt) as [x Hx].
  exists p, i, x. split_and!; [done | done | | | done |].
  - destruct (decide (i ≤ p)) as [| Hgt]; [done |].
    destruct (Hmin p p Hp'); [lia | done].
  - intros i' Hi' Hfp'. by destruct (Hmin i' p Hfp' Hi').
  - destruct ((vertex_of <$> concat X) !! i) as [v|] eqn:Hv; simpl.
    + apply list_lookup_fmap_Some in Hv as (x' & -> & Hx').
      unfold node in *. by simplify_eq.
    + apply lookup_ge_None in Hv. rewrite length_fmap in Hv.
      unfold node in *. lia.
Qed.

Lemma contracted_vertex_takes_first_witness :
  ∃ g, fit_transform 2 (nerve 1 false true) cover_nested = Ok g
       ∧ vs g = [vertex_of (0, 0, [1; 2])]%Z.
Proof.
  destruct (contracted_vertex_takes_first 2 (nerve 1 false true)
              cover_nested eq_refl) as (g & fp & _ & Hg & _);
    [done | simpl; lia |].
  exists g. split; [done |]. vm_compute in Hg. by injection Hg as <-.
Defined.

(** ** The lists returned by the scan *)

Lemma length_combinations2 {A} (l : list A) :
  2 * length (combinations2 l) = length l * (length l - 1).
Proof.
  induction l as [|x l IH]; simpl; [done |].
  rewrite length_app, length_map. nia.
Qed.

(** The lists returned by [_generate_edge_data] line up: there is one
    weight per pair (and one intersection per pair when they are stored,
    none otherwise), no pair is listed twice, and the [k]-th pair [(i, j)]
    has [i < j], both valid positions, the [k]-th weight being the
    cardinality of the intersection of the two index sets and the [k]-th
    stored intersection being [intersect1d] of the two lists.  There are
    at most [n (n - 1) / 2] pairs for [n] nodes. *)
Theorem scan_lists_line_up self (ne : list (list Z)) :
  let d := _generate_edge_data self ne in
  length (weights d) = length (node_index_pairs d)
  ∧ length (intersections d)
    = (if store_edge_elements self then length (node_index_pairs d) else 0)
  ∧ NoDup (node_index_pairs d)
  ∧ 2 * length (node_index_pairs d) ≤ length ne * (length ne - 1)
  ∧ ∀ k i j, node_index_pairs d !! k = Some (i, j) →
      i < j ∧ ∃ a b, ne !! i = Some a ∧ ne !! j = Some b
        ∧ weights d !! k = Some (Z.of_nat (inter_size a b))
        ∧ (store_edge_elements self = true →
           intersections d !! k = Some (intersect1d a b)).
Proof.
  intros d. subst d. rewrite generate_edge_data_eq. simpl.
  set (T := combinations2 (enumerate ne)).
  set (F := filter (emits self) T).
  assert (F `sublist_of` T) as Hsub by apply sublist_filter.
  split_and!.
  - by rewrite !length_fmap.
  - destruct (store_edge_elements self); [by rewrite !length_fmap | done].
  - eapply sublist_NoDup; [apply NoDup_node_tuples_idx |].
    by apply fmap_sublist.
  - rewrite length_fmap. apply sublist_length in Hsub.
    pose proof (length_combinations2 (enumerate ne)) as Hc.
    unfold enumerate in Hc at 2 3. rewrite !length_imap in Hc.
    rewrite <- Hc. fold T. unfold tuple in *. lia.
  - intros k i j ([[i' a] [j' b]] & [= -> ->] & Ht)%list_lookup_fmap_Some.
    pose proof (list_elem_of_lookup_2 _ _ _ Ht) as Hin.
    apply list_elem_of_filter in Hin as [_ Hin].
    apply elem_of_node_tuples in Hin as (Hlt & Ha & Hb). simpl in *.
    split; [done |]. exists a, b. split_and!; [done | done | |].
    + rewrite list_lookup_fmap, Ht. simpl.
      by rewrite tuple_size_inter_size.
    + intros ->. by rewrite list_lookup_fmap, Ht.
Qed.

(** Without contraction, the graph returned has one vertex per triple of
    the cover, in the order in which the triples come when the groups are
    read one after the other, each with the three attributes of its
    triple. *)
Theorem plain_vertices_in_cover_order fuel self X g :
  contract_nodes self = false → fit_transform fuel self X = Ok g →
  vs g = vertex_of <$> concat X ∧ length (vs g) = sum_list (length <$> X).
Proof.
  intros Hc ->%fit_transform_plain_inv; [| done]. simpl. split; [done |].
  rewrite length_fmap. induction X as [|x X IH]; [done |].
  simpl. rewrite length_app. by f_equal.
Qed.

Lemma plain_vertices_in_cover_order_witness :
  ∃ g, fit_transform 0 (nerve 1 false false) cover_loop = Ok g
       ∧ vs g = [attrs 0 0 [1; 2]; attrs 0 1 [2; 3]; attrs 1 0 [1; 2; 3]]%Z.
Proof.
  eexists. split; [reflexivity |].
  by destruct (plain_vertices_in_cover_order 0 (nerve 1 false false)
                 cover_loop _ eq_refl eq_refl) as [-> _].
Defined.

Lemma scan_lists_line_up_witness :
  node_index_pairs (_generate_edge_data (nerve 1 true false)
                      [[1; 2; 3]; [3; 4; 5]; [5; 6; 7]]%Z) !! 1 = Some (1, 2)
  ∧ ∃ a b, [[1; 2; 3]; [3; 4; 5]; [5; 6; 7]]%Z !! 1 = Some a
      ∧ [[1; 2; 3]; [3; 4; 5]; [5; 6; 7]]%Z !! 2 = Some b
      ∧ weights (_generate_edge_data (nerve 1 true false)
                   [[1; 2; 3]; [3; 4; 5]; [5; 6; 7]]%Z) !! 1
        = Some (Z.of_nat (inter_size a b)).
Proof.
  split; [by vm_compute |].
  destruct (scan_lists_line_up (nerve 1 true false)
              [[1; 2; 3]; [3; 4; 5]; [5; 6; 7]]%Z)
    as (_ & _ & _ & _ & Hk).
  destruct (Hk 1 1 2) as (_ & a & b & Ha & Hb & Hw & _); [by vm_compute |].
  by exists a, b.
Defined.

(** ** Covers without nested sets *)

Lemma foldl_map_step_id (l : list tuple) m :
  Forall (λ t : tuple, tuple_size t ≠ length t.2.2
                       ∧ tuple_size t ≠ length t.1.2) l →
  foldl map_step m l = m.
Proof.
  induction 1 as [|t l [H2 H1] _ IH]; simpl; [done |].
  unfold map_step at 2. by rewrite !decide_False.
Qed.

Lemma antichain_sizes (ne : list (list Z)) :
  (∀ i j a b, i ≠ j → ne !! i = Some a → ne !! j = Some b → ¬ a ⊆ b) →
  Forall (λ t : tuple, tuple_size t ≠ length t.2.2
                       ∧ tuple_size t ≠ length t.1.2)
         (combinations2 (enumerate ne)).
Proof.
  intros Hanti. apply Forall_forall.
  intros [[i a] [j b]] (Hlt & Ha & Hb)%elem_of_node_tuples; simpl in *.
  unfold tuple_size, tuple_inter; simpl. split; intros Hlen.
  - apply (Hanti j i b a); [lia | done | done |].
    by apply (intersect1d_full_r a b).
  - apply (Hanti i j a b); [lia | done | done |].
    by apply (intersect1d_full_l a b).
Qed.

Lemma for_each_id {A} (f : A → result A) l :
  (∀ x, x ∈ l → f x = Ok x) → for_each f l = Ok l.
Proof.
  induction l as [|x l IH]; intros Hf; simpl; [done |].
  rewrite Hf by left. cbn [mbind result_bind].
  rewrite IH by (intros y Hy; apply Hf; by right). done.
Qed.

Lemma fixed_points_seq fuel n :
  _fixed_points (S fuel) (seq 0 n) = Ok (seq 0 n).
Proof.
  unfold _fixed_points. rewrite length_seq. apply for_each_id.
  intros i [_ Hi]%elem_of_seq.
  rewrite (getitem_Ok _ _ i) by (apply lookup_seq; lia).
  cbn [mbind result_bind]. simpl. by rewrite decide_False by (by intros []).
Qed.

Lemma fixed_points_of_seq n : fixed_points_of (seq 0 n) = seq 0 n.
Proof.
  unfold fixed_points_of. rewrite length_seq. apply filter_all, Forall_seq.
  intros i ?. apply lookup_seq. lia.
Qed.

Lemma position_seq n v : v ≤ n → position (seq 0 n) v = v.
Proof.
  intros Hv. unfold position. rewrite filter_all; [by rewrite length_seq |].
  apply Forall_seq. intros i ?. apply lookup_seq. lia.
Qed.

Lemma first_attrs_seq (V : list VertexAttrs) :
  first_attrs V (seq 0 (length V)) <$> seq 0 (length V) = V.
Proof.
  apply list_eq. intros p. rewrite list_lookup_fmap.
  destruct (V !! p) as [v|] eqn:Hp.
  - pose proof (lookup_lt_Some _ _ _ Hp) as Hlt.
    rewrite lookup_seq_lt by done. simpl. f_equal. unfold first_attrs.
    assert (list_find (λ t, t = p) (seq 0 (length V)) = Some (p, p)) as ->.
    { apply list_find_Some. split_and!; [by apply lookup_seq | done |].
      intros j y [-> _]%lookup_seq ?. simpl. lia. }
    by rewrite Hp.
  - apply lookup_ge_None in Hp. by rewrite lookup_seq_ge.
Qed.

(** When no index set of the cover is contained in another one, turning
    [contract_nodes] on changes nothing: the mapping stays the identity
    and [fit_transform] returns the same graph as without contraction
    (one loop test per vertex is then all that [_fixed_points] needs). *)
Theorem contraction_without_nesting fuel m s X :
  (∀ i j a b, i ≠ j → (concat X).*2 !! i = Some a →
     (concat X).*2 !! j = Some b → ¬ a ⊆ b) →
  fit_transform (S fuel) (nerve m s true) X
  = fit_transform (S fuel) (nerve m s false) X.
Proof.
  intros Hanti. destruct (decide (concat X = [])) as [HX | HX].
  { by rewrite !fit_transform_empty. }
  rewrite !fit_transform_nonempty by done. simpl contract_nodes. cbv iota.
  unfold node in *.
  pose proof (antichain_sizes _ Hanti) as Hsizes.
  assert (scan_mapping ((concat X).*2) = seq 0 (length (concat X))) as ->.
  { unfold scan_mapping. rewrite foldl_map_step_id by done.
    by rewrite length_fmap. }
  assert (scanned_graph (nerve m s true) (concat X)
          = scanned_graph (nerve m s false) (concat X)) as ->.
  { unfold scanned_graph. simpl. do 2 f_equal. apply filter_in_ext.
    intros t Ht. rewrite Forall_forall in Hsizes.
    destruct (Hsizes t Ht) as [H2 H1]. unfold emits. simpl.
    by rewrite !bool_decide_eq_true_2. }
  set (g := scanned_graph (nerve m s false) (concat X)).
  set (n := length (concat X)).
  rewrite (contraction_ranked (seq 0 n) (seq 0 n)).
  - f_equal. rewrite fixed_points_of_seq.
    assert (length (vs g) = n) as Hn by apply length_fmap.
    assert (Forall (λ e, source e < n ∧ target e < n) (es g)) as Hin.
    { subst g. simpl. rewrite Forall_fmap.
      eapply Forall_impl; [apply emitted_in_range |].
      intros t [Ht1 Ht2]. rewrite length_fmap in Ht2. unfold compose.
      simpl. split; [by etrans | done]. }
    clearbody g n. destruct g as [V E]. simpl in *. f_equal.
    + rewrite <- Hn. apply first_attrs_seq.
    + clear Hn. induction Hin as [|e E [Hs Ht] _ IH]; [done |].
      csimpl. rewrite IH. f_equal. unfold contracted_edge, resolved.
      rewrite !lookup_seq_lt by done. simpl.
      rewrite !position_seq by lia. by destruct e.
  - rewrite length_seq. apply Forall2_same_length_lookup_2;
      [by rewrite !length_seq |].
    intros i v t [-> ?]%lookup_seq [-> _]%lookup_seq. simpl.
    split; [by apply lookup_seq | done].
  - apply fixed_points_seq.
  - rewrite length_seq. apply length_fmap.
  - rewrite length_seq. subst g. simpl. rewrite Forall_fmap.
    eapply Forall_impl; [apply emitted_in_range |].
    intros t [Ht1 Ht2]. rewrite length_fmap in Ht2. unfold compose.
    simpl. split; [by etrans | done].
Qed.

Lemma contraction_without_nesting_witness :
  fit_transform 1 (nerve 1 false true) cover_chain
  = Ok {| vs := [attrs 0 0 [1; 2; 3]; attrs 0 1 [3; 4; 5];
                 attrs 1 0 [5; 6; 7]]%Z;
          es := [edge 0 1 1; edge 1 2 1] |}.
Proof.
  rewrite (contraction_without_nesting 0 1 false cover_chain);
    [by vm_compute |].
  intros i j a b Hij Ha Hb Hsub.
  destruct i as [|[|[|i]]]; destruct j as [|[|[|j]]];
    simplify_eq/=; try done;
    match goal with
    | H : ?a ⊆ ?b |- _ =>
        refine (bool_decide_unpack (¬ a ⊆ b) _ H); by vm_compute
    end.
Defined.
